(** * Back_recompensa: the moderation pipeline of [server.js]

    A shallow embedding of the moderation subsystem of the single-file
    backend [src/server.js]: the heuristic scorer [evaluateText], the
    BullMQ worker that applies its verdict to the [recompensa] table and
    to the [moderacaoEvento] ledger, and the [POST /recompensas] route that
    creates a listing and enqueues its moderation job.

    JavaScript strings are sequences of UTF-16 code units; they are modelled
    as [list N].  Database rows live in a [gmap] keyed by their primary
    key.  Every asynchronous client call ([prisma.*], [moderationQueue.add])
    may reject; a schedule of failures is threaded through a small
    state-and-error monad so that partial failure can be observed. *)

From Stdlib Require Import String Ascii NArith ZArith Bool Lia.
From stdpp Require Import base option list gmap sorting.
Import ListNotations.

Local Open Scope N_scope.

(** ** JavaScript strings *)

Module Js.

Abbreviation jsstring := (list N).

(** An ASCII literal of the source, as code units. *)
Definition lit (s : string) : jsstring :=
  List.map N_of_ascii (list_ascii_of_string s).

(** [s.startsWith(p)]. *)
Fixpoint startsWith (s p : jsstring) {struct p} : bool :=
  match p, s with
  | [], _ => true
  | _ :: _, [] => false
  | c :: p', d :: s' => (c =? d) && startsWith s' p'
  end.

(** [s.includes(w)]: [w] occurs at some offset of [s]. *)
Fixpoint includes (s w : jsstring) : bool :=
  startsWith s w ||
  match s with
  | [] => false
  | _ :: s' => includes s' w
  end.

(** [parts.join(sep)]. *)
Fixpoint join (sep : jsstring) (parts : list jsstring) : jsstring :=
  match parts with
  | [] => []
  | [p] => p
  | p :: rest => p ++ sep ++ join sep rest
  end.

(** [s.replace(pat, by)] with a string pattern: only the first occurrence
    is replaced. *)
Fixpoint replace (s pat by_ : jsstring) : jsstring :=
  if startsWith s pat then by_ ++ drop (length pat) s
  else match s with
       | [] => []
       | c :: s' => c :: replace s' pat by_
       end.

(** The simple lower-case mapping on the Basic Latin and Latin-1 blocks:
    [A-Z], [À-Ö] and [Ø-Þ] move up by 32, every other unit is kept. *)
Definition lower_latin1 (c : N) : N :=
  if ((65 <=? c) && (c <=? 90)) || ((192 <=? c) && (c <=? 214))
     || ((216 <=? c) && (c <=? 222))
  then c + 32 else c.

Definition latin1 (c : N) : Prop := c < 256.

(** A Latin-1 unit that lower-casing leaves alone. *)
Definition caseless (c : N) : Prop := c < 256 ∧ lower_latin1 c = c.

(** [String.prototype.toLowerCase] is a library function driven by the
    Unicode tables.  The development is parametric in it; what is used of
    it is stated as three laws, all of which hold of the ECMAScript
    definition: on Latin-1 text it is the unit-wise mapping above; an
    occurrence of a caseless Latin-1 word survives lower-casing of the
    text around it; and such an occurrence in the lower-cased text survives
    appending to the text (the mapping works code point by code point, and
    the only context-sensitive rule concerns the Greek capital sigma). *)
Class StringPrototype := {
  toLowerCase : jsstring → jsstring;
  toLowerCase_latin1 :
    ∀ s, Forall latin1 s → toLowerCase s = List.map lower_latin1 s;
  toLowerCase_includes :
    ∀ s w, Forall caseless w → includes s w = true →
           includes (toLowerCase s) w = true;
  toLowerCase_includes_app :
    ∀ s c w, Forall caseless w → includes (toLowerCase s) w = true →
             includes (toLowerCase (s ++ c)) w = true
}.

(** *** Values, as far as [text || ""] and [String(...)] observe them *)

(** A Number or BigInt is represented by the two observations made of it:
    whether it is falsy ([0], [-0], [0n], [NaN]) and, otherwise, its
    [ToString] image. *)
Inductive number :=
| NumZero
| NumNaN
| NumOther (repr : jsstring).

(** A Symbol is represented by its description.  An object is represented
    by the outcome of converting it to a string primitive: [Some s] when
    [toString]/[valueOf] produce [s], [None] when the conversion throws a
    [TypeError] (as for [Object.create(null)]). *)
Inductive value :=
| Undefined
| Null
| Boolean (b : bool)
| Number (n : number)
| Str (s : jsstring)
| Symbol (description : jsstring)
| Object (toPrimitive : option jsstring).

Definition ToBoolean (v : value) : bool :=
  match v with
  | Undefined | Null => false
  | Boolean b => b
  | Number NumZero | Number NumNaN => false
  | Number (NumOther _) => true
  | Str s => match s with [] => false | _ => true end
  | Symbol _ | Object _ => true
  end.

(** [String(v)]; [None] stands for a thrown [TypeError]. *)
Definition String_ (v : value) : option jsstring :=
  match v with
  | Undefined => Some (lit "undefined")
  | Null => Some (lit "null")
  | Boolean true => Some (lit "true")
  | Boolean false => Some (lit "false")
  | Number NumZero => Some (lit "0")
  | Number NumNaN => Some (lit "NaN")
  | Number (NumOther r) => Some r
  | Str s => Some s
  | Symbol d => Some (lit "Symbol(" ++ d ++ lit ")")
  | Object p => p
  end.

(** [a || b]. *)
Definition or (a b : value) : value := if ToBoolean a then a else b.

(** The conversion of a substitution [${v}] of a template literal: as
    [String(v)], except that a Symbol throws a [TypeError]. *)
Definition template (v : value) : option jsstring :=
  match v with
  | Symbol _ => None
  | _ => String_ v
  end.

End Js.

Import Js.

(** ** Regular expressions, as far as [RegExp.prototype.test] needs them *)

Module RegExp.

Inductive regex :=
| Digit                                (* \d *)
| Chr (c : N)                          (* a literal character *)
| WordB                                (* \b *)
| Seq (r1 r2 : regex)
| Alt (r1 r2 : regex)
| Opt (r : regex)                      (* r? *)
| Star (r : regex)                     (* r* *)
| Plus (r : regex)                     (* r+ *)
| Rep (lo hi : nat) (r : regex).       (* r{lo,hi} *)

Definition is_digit (c : N) : bool := (48 <=? c) && (c <=? 57).

(** [\w] without the [u] and [i] flags: [[A-Za-z0-9_]]. *)
Definition is_word (c : N) : bool :=
  is_digit c || ((65 <=? c) && (c <=? 90)) || ((97 <=? c) && (c <=? 122))
  || (c =? 95).

Definition word_at (s : jsstring) (i : nat) : bool :=
  match s !! i with Some c => is_word c | None => false end.

(** [\b] holds at index [i] when exactly one of its two sides is a word
    character; outside the input counts as a non-word character. *)
Definition boundary (s : jsstring) (i : nat) : bool :=
  xorb (match i with O => false | S j => word_at s j end) (word_at s i).

Section Ends.
Variable s : jsstring.

(** Zero or more further iterations of a matcher [f], each consuming at
    least one character (an iteration that matches the empty string
    is not considered by the ECMAScript semantics), at most [n] of them. *)
Fixpoint iter (f : nat → list nat) (n : nat) (i : nat) : list nat :=
  i :: match n with
       | O => []
       | S n' =>
           flat_map (λ j, if (i <? j)%nat then iter f n' j else []) (f i)
       end.

(** Between [lo] and [hi] iterations. *)
Fixpoint rep (f : nat → list nat) (lo hi : nat) (i : nat) : list nat :=
  match lo, hi with
  | S lo', S hi' => flat_map (rep f lo' hi') (f i)
  | S _, O => []
  | O, _ => iter f hi i
  end.

(** [ends r i]: the indices at which some match of [r] that starts at
    index [i] of [s] ends.  [test] only asks whether a match exists, so
    the order in which a backtracking matcher would try them does not
    matter. *)
Fixpoint ends (r : regex) (i : nat) : list nat :=
  match r with
  | Digit => match s !! i with
             | Some c => if is_digit c then [S i] else []
             | None => []
             end
  | Chr c => match s !! i with
             | Some d => if c =? d then [S i] else []
             | None => []
             end
  | WordB => if boundary s i then [i] else []
  | Seq r1 r2 => flat_map (ends r2) (ends r1 i)
  | Alt r1 r2 => ends r1 i ++ ends r2 i
  | Opt r => i :: ends r i
  | Star r => iter (ends r) (length s) i
  | Plus r => flat_map (iter (ends r) (length s)) (ends r i)
  | Rep lo hi r => rep (ends r) lo hi i
  end.
End Ends.

(** [re.test(s)] for a regular expression without the [g] and [y] flags:
    a match may start at any index. *)
Definition test (r : regex) (s : jsstring) : bool :=
  existsb (λ i, match ends s r i with [] => false | _ => true end)
          (seq 0 (S (length s))).

End RegExp.

Import RegExp.

(** ** Moderação (heurística MVP) *)

Definition c_cedilla : N := 231.

Definition BANNED : list jsstring :=
  [ lit "matar"; lit "assassinar"; lit "sequestro"; lit "drogas";
    lit "invadir conta"; lit "hackear";
    lit "endereco residencial de"; lit "cpf de"; lit "chantagem";
    lit "espionar";
    lit "crian" ++ [c_cedilla] ++ lit "a"; lit "pornografia";
    lit "explosivo"; lit "arma"; lit "branco/negro/gay" ].

Definition SENSITIVE : list jsstring :=
  [ lit "descobrir endereco"; lit "seguir pessoa"; lit "monitorar";
    lit "localizar pessoa";
    lit "documentos pessoais"; lit "senha"; lit "codigo 2fa";
    lit "dados bancarios" ].

(** [/\b(\d{1,3}(\.\d{3})*|\d+)(,\d{2})?\b/] *)
Definition valores : regex :=
  Seq WordB
   (Seq (Alt (Seq (Rep 1 3 Digit) (Star (Seq (Chr 46) (Rep 3 3 Digit))))
             (Plus Digit))
    (Seq (Opt (Seq (Chr 44) (Rep 2 2 Digit)))
         WordB)).

(* The word lists and the pattern are only unfolded by evaluation. *)
#[global] Arguments BANNED : simpl never.
#[global] Arguments SENSITIVE : simpl never.
#[global] Arguments valores : simpl never.

Record Avaliacao := { score : Z; flags : list jsstring }.

(** One turn of
    [for (const w of LIST)
       if (t.includes(w)) { flags.push(`TAG:${w}`); score += k; }]
    on the pair of the two accumulators. *)
Definition passo (tag : jsstring) (k : Z) (t : jsstring)
    (acc : list jsstring * Z) (w : jsstring) : list jsstring * Z :=
  if includes t w then (acc.1 ++ [tag ++ w], (acc.2 + k)%Z) else acc.

(** The body of [evaluateText] on the string [s = String(text || "")]. *)
Definition avalia `{StringPrototype} (s : jsstring) : Avaliacao :=
  let t := toLowerCase s in
  let acc := ([], 0%Z) in
  let acc := fold_left (passo (lit "BANNED:") 100 t) BANNED acc in
  let acc := fold_left (passo (lit "SENSITIVE:") 30 t) SENSITIVE acc in
  let score := acc.2 in
  let score := if test valores t then (score + 5)%Z else score in
  let score :=
    if includes t (lit "urgente") || includes t (lit "imediato")
    then (score + 5)%Z else score in
  {| score := score; flags := acc.1 |}.

(** [evaluateText(text)]; [None] when [String(text || "")] throws. *)
Definition evaluateText `{StringPrototype} (text : value) : option Avaliacao :=
  s ← String_ (or text (Str []));
  Some (avalia s).

(** ** Stored data *)

Inductive Status := EM_REVISAO | PUBLICADA | BANIDA.

Inductive Acao := REJEITAR | AJUSTAR | APROVAR.

(** The fields that [POST /recompensas] reads from [req.body] and hands to
    [prisma.recompensa.create]. *)
Record Body := {
  titulo : value; descricao : value; categoria : value;
  valorCentavos : value; prazoISO : value;
  scope : value; uf : value; municipioIbge : value;
  latitude : value; longitude : value; raioMetros : value
}.

(** Modelled from the spec: the Prisma schema is not part of the sources.
    A row of [recompensa] keeps the creator, the data columns, the
    lifecycle [status] and a [riskScore] that is unset until a verdict is
    written (its primary key is the key of the table). *)
Record Recompensa := {
  criadorId : N;
  dados : Body;
  status : Status;
  riskScore : option Z
}.

Record ModeracaoEvento := {
  recompensaId : N;
  recursoTipo : jsstring;
  recursoId : N;
  acao : Acao;
  motivo : jsstring
}.

(** The payload [{ recompensaId }] of a job of the [moderation] queue. *)
Record Job := { job_recompensaId : N }.

(** Modelled from the spec: primary keys come from the schema, which is not
    part of the sources; listings get opaque unique ids, here the values of
    a counter.  The shared state is made of the two tables, the queue and
    that counter. *)
Record Mundo := {
  recompensas : gmap N Recompensa;
  eventos : list ModeracaoEvento;
  fila : list Job;
  proximoId : N
}.

Definition com_recompensas (f : gmap N Recompensa → gmap N Recompensa)
    (w : Mundo) : Mundo :=
  {| recompensas := f (recompensas w); eventos := eventos w;
     fila := fila w; proximoId := proximoId w |}.

Definition com_evento (e : ModeracaoEvento) (w : Mundo) : Mundo :=
  {| recompensas := recompensas w; eventos := eventos w ++ [e];
     fila := fila w; proximoId := proximoId w |}.

Definition com_job (j : Job) (w : Mundo) : Mundo :=
  {| recompensas := recompensas w; eventos := eventos w;
     fila := fila w ++ [j]; proximoId := proximoId w |}.

Definition com_novo_id (w : Mundo) : Mundo :=
  {| recompensas := recompensas w; eventos := eventos w;
     fila := fila w; proximoId := N.succ (proximoId w) |}.

Definition veredito (st : Status) (sc : Z) (r : Recompensa) : Recompensa :=
  {| criadorId := criadorId r; dados := dados r;
     status := st; riskScore := Some sc |}.

Definition mundo_vazio : Mundo :=
  {| recompensas := ∅; eventos := []; fila := []; proximoId := 1 |}.

(** ** Awaited calls that may reject *)

Inductive Erro :=
| TypeError             (* thrown by the language itself *)
| ValidationError       (* the client rejects the data against the schema *)
| RecordNotFound        (* update of a row that does not exist *)
| Indisponivel.         (* the store or the queue cannot be reached *)

(** A computation runs against a schedule of outcomes for the client calls
    it awaits, in order: [true] makes the call reject; when the schedule is
    exhausted every further call goes through. *)
Definition IO (A : Type) : Type :=
  list bool → Mundo → (Erro + A) * Mundo * list bool.

#[export] Instance IO_ret : MRet IO := λ A a fs w, (inr a, w, fs).

#[export] Instance IO_bind : MBind IO := λ A B k m fs w,
  match m fs w with
  | (inl e, w', fs') => (inl e, w', fs')
  | (inr a, w', fs') => k a fs' w'
  end.

Definition throw {A} (e : Erro) : IO A := λ fs w, (inl e, w, fs).

(** [try { m } catch (e) { h e }] *)
Definition catch {A} (m : IO A) (h : Erro → IO A) : IO A := λ fs w,
  match m fs w with
  | (inl e, w', fs') => h e fs' w'
  | ok => ok
  end.

Definition gets {A} (f : Mundo → A) : IO A := λ fs w, (inr (f w), w, fs).

Definition modify (f : Mundo → Mundo) : IO () := λ fs w, (inr (), f w, fs).

(** The round trip of one client call. *)
Definition chamada : IO () := λ fs w,
  match fs with
  | true :: fs' => (inl Indisponivel, w, fs')
  | false :: fs' => (inr (), w, fs')
  | [] => (inr (), w, [])
  end.

Definition lift {A} (o : option A) : IO A :=
  match o with Some a => mret a | None => throw TypeError end.

(** Outcome, final state and remaining schedule of a run. *)
Definition resultado {A} (x : (Erro + A) * Mundo * list bool) : Erro + A :=
  x.1.1.
Definition mundo {A} (x : (Erro + A) * Mundo * list bool) : Mundo := x.1.2.
Definition agenda {A} (x : (Erro + A) * Mundo * list bool) : list bool := x.2.

(** ** The external services *)

(** [jwt.verify] and the schema check of the Prisma client belong to
    libraries and to a schema that are not in the sources; they are
    parameters.  [jwt_verify token] is the [sub] of a valid token;
    [prisma_validate criador data] is the row content as stored, or
    [None] when a required field is missing or malformed. *)
Class Servicos := {
  jwt_verify : jsstring → option N;
  prisma_validate : N → Body → option Body
}.

Module prisma.

(** [prisma.recompensa.findUnique({ where: { id } })] *)
Definition recompensa_findUnique (id : N) : IO (option Recompensa) :=
  chamada;; gets (λ w, recompensas w !! id).

(** [prisma.recompensa.update(
      { where: { id }, data: { status, riskScore } })] *)
Definition recompensa_update (id : N) (st : Status) (sc : Z) : IO () :=
  chamada;;
  r ← gets (λ w, recompensas w !! id);
  match r with
  | None => throw RecordNotFound
  | Some r => modify (com_recompensas (insert id (veredito st sc r)))
  end.

(** [prisma.recompensa.create({ data: { criadorId, ..., status } })]; no
    [riskScore] is given, so the column stays unset. *)
Definition recompensa_create `{Servicos}
    (criador : N) (data : Body) (st : Status) : IO (N * Recompensa) :=
  match prisma_validate criador data with
  | None => throw ValidationError
  | Some cols =>
      chamada;;
      id ← gets proximoId;
      let r := {| criadorId := criador; dados := cols;
                  status := st; riskScore := None |} in
      modify (λ w, com_novo_id (com_recompensas (insert id r) w));;
      mret (id, r)
  end.

(** [prisma.moderacaoEvento.create({ data })] *)
Definition moderacaoEvento_create (e : ModeracaoEvento) : IO () :=
  chamada;; modify (com_evento e).

End prisma.

(** ** BullMQ (fila + worker) *)

(** [moderationQueue.add("recompensa", { recompensaId }, ...)] *)
Definition enqueueRecompensaModeration (id : N) : IO () :=
  chamada;; modify (com_job {| job_recompensaId := id |}).

(** The template literal [`${r.titulo}\n${r.descricao}`]. *)
Definition fullText (r : Recompensa) : option jsstring :=
  a ← template (titulo (dados r));
  b ← template (descricao (dados r));
  Some (a ++ [10] ++ b).

Definition evento (id : N) (a : Acao) (m : jsstring) : ModeracaoEvento :=
  {| recompensaId := id; recursoTipo := lit "Recompensa"; recursoId := id;
     acao := a; motivo := m |}.

(** The processor passed to [new Worker("moderation", ...)]. *)
Definition worker `{StringPrototype} (job : Job) : IO () :=
  let id := job_recompensaId job in
  r ← prisma.recompensa_findUnique id;
  match r with
  | None => mret ()
  | Some r =>
      text ← lift (fullText r);
      av ← lift (evaluateText (Str text));
      if existsb (λ f, startsWith f (lit "BANNED")) (flags av) then
        prisma.recompensa_update id BANIDA (score av);;
        prisma.moderacaoEvento_create
          (evento id REJEITAR (join (lit ", ") (flags av)))
      else if (40 <=? score av)%Z then
        prisma.moderacaoEvento_create
          (evento id AJUSTAR (join (lit ", ") (flags av)))
      else
        prisma.recompensa_update id PUBLICADA (score av);;
        prisma.moderacaoEvento_create (evento id APROVAR (lit "auto"))
  end.

(** Number of times BullMQ hands a failing job to the processor
    ([attempts: 3] in [enqueueRecompensaModeration]). *)
Definition attempts : nat := 3.

(** The queue runs the processor on a job until it resolves, at most [n]
    times; the answer tells whether an attempt resolved.  Afterwards the
    job is removed either way ([removeOnComplete], [removeOnFail]). *)
Fixpoint processar `{StringPrototype} (n : nat) (job : Job) : IO bool :=
  match n with
  | O => mret false
  | S n' => catch (worker job;; mret true) (λ _, processar n' job)
  end.

(** ** Rotas *)

Record Request := {
  authorization : option jsstring;       (* req.headers.authorization *)
  body : option Body                      (* req.body *)
}.

Inductive Response :=
| Json (id : N) (st : Status)             (* res.json({ id, status }) *)
| Status400 (e : Erro)                    (* res.status(400).json({ erro }) *)
| Status401.                              (* res.status(401).json({ erro }) *)

(** [requireAuth]: the [sub] of the bearer token, if it verifies. *)
Definition requireAuth `{Servicos} (req : Request) : option N :=
  let header := default [] (authorization req) in
  let token := replace header (lit "Bearer ") [] in
  jwt_verify token.

(** [app.post("/recompensas", requireAuth, ...)] *)
Definition post_recompensas `{Servicos} (req : Request) : IO Response :=
  match requireAuth req with
  | None => mret Status401
  | Some userId =>
      catch
        (b ← lift (body req);
         r ← prisma.recompensa_create userId b EM_REVISAO;
         enqueueRecompensaModeration r.1;;
         mret (Json r.1 (status r.2)))
        (λ e, mret (Status400 e))
  end.

(** ** The scorer, as the specification words it *)

(** The terms of a word list that occur in the normalised text, in list
    order. *)
Definition matching (t : jsstring) (l : list jsstring) : list jsstring :=
  List.filter (includes t) l.

Definition currency (t : jsstring) : bool := test valores t.

Definition urgency (t : jsstring) : bool :=
  includes t (lit "urgente") || includes t (lit "imediato").

Definition banned_flag (w : jsstring) : jsstring := lit "BANNED:" ++ w.
Definition sensitive_flag (w : jsstring) : jsstring := lit "SENSITIVE:" ++ w.

Definition points (b : bool) : Z := if b then 5%Z else 0%Z.

(** How many times a flag occurs in a list of flags. *)
Definition occurrences (f : jsstring) (fl : list jsstring) : nat :=
  count_occ (List.list_eq_dec N.eq_dec) fl f.

(** Lower-case the text; one [BANNED:<term>] flag and 100 points per
    banned term present; one [SENSITIVE:<term>] flag and 30 points per
    sensitive term present; 5 points for a currency-like numeral; 5 points
    for an urgency marker. *)
Definition evaluate_spec `{StringPrototype} (text : jsstring) : Avaliacao :=
  let t := toLowerCase text in
  {| score := (100 * Z.of_nat (length (matching t BANNED))
               + 30 * Z.of_nat (length (matching t SENSITIVE))
               + points (currency t) + points (urgency t))%Z;
     flags := (banned_flag <$> matching t BANNED)
              ++ (sensitive_flag <$> matching t SENSITIVE) |}.

(** The tier the worker takes on a verdict of the scorer. *)
Definition decisao (av : Avaliacao) : Acao :=
  if existsb (λ f, startsWith f (lit "BANNED")) (flags av) then REJEITAR
  else if (40 <=? score av)%Z then AJUSTAR
  else APROVAR.

(** ** Vocabulary of the statements *)

(** The terms and patterns matched by [t1] are all matched by [t2]. *)
Definition matches_le (t1 t2 : jsstring) : Prop :=
  (∀ w, w ∈ BANNED ++ SENSITIVE →
        includes t1 w = true → includes t2 w = true)
  ∧ (currency t1 = true → currency t2 = true)
  ∧ (urgency t1 = true → urgency t2 = true).

(** [t2] matches a term or a pattern that [t1] does not match (a currency
    match of [t2] counts in any case). *)
Definition new_match (t1 t2 : jsstring) : Prop :=
  (∃ w, w ∈ BANNED ++ SENSITIVE
        ∧ includes t1 w = false ∧ includes t2 w = true)
  ∨ (urgency t1 = false ∧ urgency t2 = true)
  ∨ currency t2 = true.

(** The content carries a term or a pattern that the scorer looks for. *)
Definition marked (c : jsstring) : Prop :=
  (∃ w, w ∈ BANNED ++ SENSITIVE ∧ includes c w = true)
  ∨ currency c = true ∨ urgency c = true.

(** The unit at index [i] is a digit. *)
Definition digit_at (s : jsstring) (i : nat) : bool :=
  match s !! i with Some c => is_digit c | None => false end.

(** The units of [s] from index [i] up to [j] are digits. *)
Definition digits_between (s : jsstring) (i j : nat) : Prop :=
  ∀ k, (i ≤ k < j)%nat → digit_at s k = true.

(** A run of digits that is a word of its own. *)
Definition whole_number (s : jsstring) (i j : nat) : Prop :=
  (i < j)%nat ∧ digits_between s i j
  ∧ boundary s i = true ∧ boundary s j = true.

(** The content does not start with a word character. *)
Definition starts_apart (c : jsstring) : Prop :=
  ∀ d, head c = Some d → is_word d = false.

(** The next awaited call rejects. *)
Definition falha (fs : list bool) : bool :=
  match fs with true :: _ => true | _ => false end.

(** No awaited call rejects. *)
Definition sem_falhas (fs : list bool) : Prop := Forall (λ b, b = false) fs.

(** The status and the reason that go with a tier. *)
Definition novo_status (a : Acao) : Status :=
  match a with REJEITAR => BANIDA | _ => PUBLICADA end.

Definition motivo_de (a : Acao) (av : Avaliacao) : jsstring :=
  match a with APROVAR => lit "auto" | _ => join (lit ", ") (flags av) end.

(** The final statuses. *)
Definition terminal (st : Status) : Prop := st = PUBLICADA ∨ st = BANIDA.

(** The scorer is only unfolded by evaluation. *)
#[global] Arguments avalia : simpl never.
#[global] Arguments evaluateText : simpl never.

(** ** The worker and the route as decision trees *)

(** The worker as a decision tree over the outcome of its (at most
    three) awaited calls. *)
Definition worker_tree `{StringPrototype} (job : Job) : IO () := λ fs w,
  let id := job_recompensaId job in
  if falha fs then (inl Indisponivel, w, tail fs) else
  match recompensas w !! id with
  | None => (inr (), w, tail fs)
  | Some r =>
      match fullText r with
      | None => (inl TypeError, w, tail fs)
      | Some s =>
          let av := avalia s in
          let a := decisao av in
          let ev := evento id a (motivo_de a av) in
          if falha (tail fs) then
            (inl Indisponivel, w, tail (tail fs))
          else
            match a with
            | AJUSTAR => (inr (), com_evento ev w, tail (tail fs))
            | _ =>
                let w1 :=
                  com_recompensas
                    (insert id (veredito (novo_status a) (score av) r)) w in
                if falha (tail (tail fs)) then
                  (inl Indisponivel, w1, tail (tail (tail fs)))
                else
                  (inr (), com_evento ev w1, tail (tail (tail fs)))
            end
      end
  end.

(** The row that [POST /recompensas] inserts. *)
Definition nova (criador : N) (cols : Body) : Recompensa :=
  {| criadorId := criador; dados := cols;
     status := EM_REVISAO; riskScore := None |}.

(** The route as a decision tree over the outcome of its two awaited
    calls. *)
Definition post_tree `{Servicos} (req : Request) : IO Response := λ fs w,
  match requireAuth req with
  | None => (inr Status401, w, fs)
  | Some userId =>
      match body req with
      | None => (inr (Status400 TypeError), w, fs)
      | Some b =>
          match prisma_validate userId b with
          | None => (inr (Status400 ValidationError), w, fs)
          | Some cols =>
              if falha fs then (inr (Status400 Indisponivel), w, tail fs)
              else
                let id := proximoId w in
                let w1 :=
                  com_novo_id
                    (com_recompensas (insert id (nova userId cols)) w) in
                if falha (tail fs) then
                  (inr (Status400 Indisponivel), w1, tail (tail fs))
                else
                  (inr (Json id EM_REVISAO),
                   com_job {| job_recompensaId := id |} w1,
                   tail (tail fs))
          end
      end
  end.

(** ** Invariants of the listing table *)



(** A row agrees with the scorer: it is still under review and has no
    riskScore, or it carries the verdict that the worker derives from its
    own text. *)
Definition coerente `{StringPrototype} (r : Recompensa) : Prop :=
  (status r = EM_REVISAO ∧ riskScore r = None)
  ∨ ∃ s, fullText r = Some s
         ∧ decisao (avalia s) ≠ AJUSTAR
         ∧ status r = novo_status (decisao (avalia s))
         ∧ riskScore r = Some (score (avalia s)).

Definition bem_formado `{StringPrototype} (w : Mundo) : Prop :=
  ∀ id r, recompensas w !! id = Some r → coerente r ∧ id < proximoId w.

(** One request served or one job delivered, under any schedule of
    failures.  Deliveries are not tied to the queue: a job may be handled
    any number of times, in any order. *)
Inductive transicao `{StringPrototype} `{Servicos} : Mundo → Mundo → Prop :=
| servir req fs w : transicao w (mundo (post_recompensas req fs w))
| entregar job fs w : transicao w (mundo (worker job fs w)).

Definition alcancavel `{StringPrototype} `{Servicos} (w : Mundo) : Prop :=
  rtc transicao mundo_vazio w.

(** ** Concrete data for the worked scenarios *)

Definition corpo (t d : jsstring) : Body :=
  {| titulo := Str t; descricao := Str d; categoria := Null;
     valorCentavos := Null; prazoISO := Null; scope := Null; uf := Null;
     municipioIbge := Null; latitude := Null; longitude := Null;
     raioMetros := Null |}.

Definition linha (t d : jsstring) (st : Status) (sc : option Z) : Recompensa :=
  {| criadorId := 1; dados := corpo t d; status := st; riskScore := sc |}.

Definition com_linha (id : N) (r : Recompensa) : Mundo :=
  com_recompensas (insert id r) mundo_vazio.

Definition dog_title : jsstring := lit "Help find my dog".
Definition dog_description : jsstring := lit "Reward for safe return, urgent!".
Definition dog_text : jsstring := dog_title ++ [10] ++ dog_description.

(** A token service that accepts the token [tok] for user 7 and a schema
    under which the two text columns are required strings. *)
#[export] Instance servicos_exemplo : Servicos :=
  {| jwt_verify := λ t, if bool_decide (t = lit "tok") then Some 7 else None;
     prisma_validate := λ _ b,
       match titulo b, descricao b with
       | Str _, Str _ => Some b
       | _, _ => None
       end |}.

Definition pedido (b : option Body) : Request :=
  {| authorization := Some (lit "Bearer tok"); body := b |}.

(** ** Vocabulary of the further properties *)

(** [/\b\d+\b/] *)
Definition inteiro : regex := Seq WordB (Seq (Plus Digit) WordB).

#[global] Arguments inteiro : simpl never.

(** The schedule on which the first two calls of each of [n] attempts go
    through and the third is rejected. *)
Fixpoint recusa_eventos (n : nat) : list bool :=
  match n with
  | O => []
  | S n' => [false; false; true] ++ recusa_eventos n'
  end.

(** An event of the ledger agrees with the table: it is the event that the
    worker derives from the text of its listing, and the listing is in the
    state that goes with it. *)
Definition evento_fiel `{StringPrototype} (w : Mundo) (e : ModeracaoEvento)
    : Prop :=
  ∃ r s, recompensas w !! recompensaId e = Some r
    ∧ fullText r = Some s
    ∧ e = evento (recompensaId e) (decisao (avalia s))
            (motivo_de (decisao (avalia s)) (avalia s))
    ∧ match acao e with
      | AJUSTAR => status r = EM_REVISAO ∧ riskScore r = None
      | a => status r = novo_status a ∧ riskScore r = Some (score (avalia s))
      end.

(** The invariant of the pipeline: coherent rows, a faithful ledger, and
    jobs that name listings of the table, each listing at most once. *)
Definition pipeline_ok `{StringPrototype} (w : Mundo) : Prop :=
  bem_formado w
  ∧ (∀ e, e ∈ eventos w → evento_fiel w e)
  ∧ (∀ j, j ∈ fila w → is_Some (recompensas w !! job_recompensaId j))
  ∧ NoDup (fila w).

#[export] Instance number_eq_dec : EqDecision number.
Proof. solve_decision. Defined.

#[export] Instance value_eq_dec : EqDecision value.
Proof. solve_decision. Defined.

(** ** The feed *)

(** A parameter of [req.query] as the query parser delivers it: absent, a
    string, or a nested value (an array or an object), of which only the
    [String(...)] image is observed. *)
Inductive Param :=
| Ausente
| Texto (s : jsstring)
| Composto (image : jsstring).

(** The parameters that [GET /recompensas] reads from [req.query]. *)
Record Query := {
  q_scope : Param; q_uf : Param; q_municipioIbge : Param;
  q_lat : Param; q_lon : Param; q_raioKm : Param; q_categoria : Param
}.

(** Truthiness of a parameter. *)
Definition presente (p : Param) : bool :=
  match p with
  | Ausente | Texto [] => false
  | _ => true
  end.

(** [String(p)] *)
Definition imagem (p : Param) : jsstring :=
  match p with
  | Ausente => lit "undefined"
  | Texto s | Composto s => s
  end.

(** [p === s] for a string literal [s]. *)
Definition e_literal (p : Param) (s : jsstring) : bool :=
  match p with
  | Texto s' => bool_decide (s' = s)
  | _ => false
  end.

(** [v === p] for the value [v] of a column: a nested value is an object
    of the request, identical to nothing that is stored. *)
Definition coluna_igual (v : value) (p : Param) : bool :=
  match p, v with
  | Texto s, Str s' => bool_decide (s' = s)
  | Ausente, Undefined => true
  | _, _ => false
  end.

(** [v == null] *)
Definition nulo (v : value) : bool :=
  match v with
  | Undefined | Null => true
  | _ => false
  end.

(** What the feed leaves to the database and to floating-point
    arithmetic; the development is parametric in it.
    [categoria_contains v c] is the filter
    [{ contains: c, mode: "insensitive" }] on a stored category;
    [scope_where p] is the clause [{ scope: p }], [None] when the client
    rejects the value; [criadoEm id] is the creation instant stored with
    the row of key [id]; [ordenar] is [orderBy: { criadoEm: "desc" }], some
    rearrangement of the rows with the newest first; [dentro_do_raio] is
    the comparison [haversineKm(lat0, lon0, r.latitude, r.longitude)
    <= Math.max(raio, (r.raioMetros || 0) / 1000)] on the parsed
    parameters. *)
Class Consulta := {
  categoria_contains : value → jsstring → bool;
  scope_where : Param → option (value → bool);
  criadoEm : N → N;
  ordenar : list (N * Recompensa) → list (N * Recompensa);
  ordenar_perm : ∀ l, ordenar l ≡ₚ l;
  ordenar_desc :
    ∀ l, StronglySorted (λ a b, criadoEm b.1 ≤ criadoEm a.1) (ordenar l);
  dentro_do_raio : Param → Param → Param → Recompensa → bool
}.

Definition publicada (r : Recompensa) : bool :=
  match status r with PUBLICADA => true | _ => false end.

(** [prisma.recompensa.findMany({ where: { status: "PUBLICADA", ... },
      orderBy: { criadoEm: "desc" }, take: 200 })] *)
Definition recompensa_findMany `{Consulta} (q : Query)
    : IO (list (N * Recompensa)) :=
  let por_categoria : value → bool :=
    if presente (q_categoria q)
    then λ v, categoria_contains v (imagem (q_categoria q))
    else λ _, true in
  match (if presente (q_scope q) then scope_where (q_scope q)
         else Some (λ _, true)) with
  | None => throw ValidationError
  | Some por_scope =>
      chamada;;
      rows ← gets (λ w, map_to_list (recompensas w));
      mret (take 200
              (ordenar
                 (List.filter
                    (λ ir, publicada ir.2
                           && por_categoria (categoria (dados ir.2))
                           && por_scope (scope (dados ir.2)))
                    rows)))
  end.

(** An element of the feed. *)
Record Item := {
  item_id : N;
  item_titulo : value; item_categoria : value; item_valorCentavos : value;
  item_scope : value; item_uf : value; item_municipioIbge : value;
  item_latitude : value; item_longitude : value;
  item_criadoEm : N
}.

Definition item `{Consulta} (ir : N * Recompensa) : Item :=
  let d := dados ir.2 in
  {| item_id := ir.1;
     item_titulo := titulo d; item_categoria := categoria d;
     item_valorCentavos := valorCentavos d;
     item_scope := scope d; item_uf := uf d;
     item_municipioIbge := municipioIbge d;
     item_latitude := latitude d; item_longitude := longitude d;
     item_criadoEm := criadoEm ir.1 |}.

(** The three filters that the handler applies to the rows it got. *)
Definition por_uf (q : Query) (ir : N * Recompensa) : bool :=
  coluna_igual (uf (dados ir.2)) (q_uf q).

Definition por_municipio (q : Query) (ir : N * Recompensa) : bool :=
  coluna_igual (municipioIbge (dados ir.2)) (q_municipioIbge q).

Definition por_raio `{Consulta} (q : Query) (ir : N * Recompensa) : bool :=
  if nulo (latitude (dados ir.2)) || nulo (longitude (dados ir.2)) then false
  else dentro_do_raio (q_lat q) (q_lon q) (q_raioKm q) ir.2.

(** The filters that the handler applies, by scope, to the rows it got. *)
Definition regiao `{Consulta} (q : Query) (base : list (N * Recompensa))
    : list (N * Recompensa) :=
  let base :=
    if e_literal (q_scope q) (lit "UF") && presente (q_uf q)
    then List.filter (por_uf q) base else base in
  let base :=
    if e_literal (q_scope q) (lit "MUNICIPIO") && presente (q_municipioIbge q)
    then List.filter (por_municipio q) base else base in
  let base :=
    if e_literal (q_scope q) (lit "RAIO") && presente (q_lat q)
       && presente (q_lon q) && presente (q_raioKm q)
    then List.filter (por_raio q) base else base in
  base.

(** [app.get("/recompensas", ...)].  The handler has no [try]: when the
    query rejects, so does the handler; what is sent then is up to the
    framework, not to this code. *)
Definition get_recompensas `{Consulta} (q : Query) : IO (list Item) :=
  base ← recompensa_findMany q;
  mret (item <$> regiao q base).

#[export] Instance desc_dec : RelDecision (λ a b : N * Recompensa, b.1 ≤ a.1).
Proof. intros a b. apply _. Defined.

#[export] Instance desc_total : Total (λ a b : N * Recompensa, b.1 ≤ a.1).
Proof. intros a b. lia. Qed.

#[export] Instance desc_trans : Transitive (λ a b : N * Recompensa, b.1 ≤ a.1).
Proof. intros a b c. lia. Qed.

(** A database that matches categories and scopes exactly and keeps the
    key as creation instant, and a radius test that accepts everything. *)
#[export] Instance consulta_exemplo : Consulta :=
  {| categoria_contains := λ v c, bool_decide (v = Str c);
     scope_where := λ p,
       match p with
       | Texto s => Some (λ v, bool_decide (v = Str s))
       | _ => None
       end;
     criadoEm := λ id, id;
     ordenar := merge_sort (λ a b, b.1 ≤ a.1);
     ordenar_perm := merge_sort_Permutation _;
     ordenar_desc := StronglySorted_merge_sort _;
     dentro_do_raio := λ _ _ _ _, true |}.

(** ** Accounts *)

(** The fields that the routes under [/auth] read from [req.body]. *)
Record Cadastro := {
  c_nomeCompleto : value; c_email : value; c_senha : value;
  c_telefone : value; c_cpf : value; c_dataNascimento : value;
  c_endereco : value
}.

(** A row of [usuario], by the columns that the routes write and read (the
    Prisma schema is not part of the sources).  [dataNascimento] stands for
    the instant [new Date(v)] of the value [v] it holds. *)
Record Usuario := {
  nomeCompleto : value; email : value; senhaHash : jsstring;
  telefone : value; cpf : value; dataNascimento : value;
  endereco : value; kycStatus : jsstring
}.

(** The table of accounts.  Primary keys come from the schema; as for
    listings they are taken to be the values of a counter. *)
Record Contas := {
  usuarios : gmap N Usuario;
  proximoUsuario : N
}.

Definition contas_vazias : Contas :=
  {| usuarios := ∅; proximoUsuario := 1 |}.

(** The two unique fields that the routes look accounts up by. *)
Inductive Campo := Email | Cpf.

Definition coluna (k : Campo) : Usuario → value :=
  match k with Email => email | Cpf => cpf end.

Inductive Excecao :=
| SemCorpo              (* destructuring an undefined body *)
| Rejeitado             (* the client rejects an argument against the schema *)
| Conflito              (* a unique constraint of the table fails *)
| ArgumentosIlegais     (* bcryptjs rejects its arguments *)
| ForaDoAr.             (* the store cannot be reached *)

(** Computations over the accounts, against a schedule of outcomes for the
    client calls, as [IO] is over the listings. *)
Definition IOc (A : Type) : Type :=
  list bool → Contas → (Excecao + A) * Contas * list bool.

#[export] Instance IOc_ret : MRet IOc := λ A a fs c, (inr a, c, fs).

#[export] Instance IOc_bind : MBind IOc := λ A B k m fs c,
  match m fs c with
  | (inl e, c', fs') => (inl e, c', fs')
  | (inr a, c', fs') => k a fs' c'
  end.

Definition lanca {A} (e : Excecao) : IOc A := λ fs c, (inl e, c, fs).

(** [try { m } catch (e) { h e }] *)
Definition tenta {A} (m : IOc A) (h : Excecao → IOc A) : IOc A := λ fs c,
  match m fs c with
  | (inl e, c', fs') => h e fs' c'
  | ok => ok
  end.

Definition le {A} (f : Contas → A) : IOc A := λ fs c, (inr (f c), c, fs).

Definition grava (f : Contas → Contas) : IOc () := λ fs c, (inr (), f c, fs).

(** The round trip of one call to the store. *)
Definition acesso : IOc () := λ fs c,
  match fs with
  | true :: fs' => (inl ForaDoAr, c, fs')
  | _ => (inr (), c, tail fs)
  end.

(** Outcome and final state of a run. *)
Definition saida {A} (x : (Excecao + A) * Contas * list bool) : Excecao + A :=
  x.1.1.
Definition estado {A} (x : (Excecao + A) * Contas * list bool) : Contas :=
  x.1.2.

Definition exige {A} (e : Excecao) (o : option A) : IOc A :=
  match o with Some a => mret a | None => lanca e end.

(** [bcrypt] and [jwt.sign] belong to libraries, and the checks of the
    Prisma client to a schema that is not in the sources; they are
    parameters.  [bcrypt_hash senha sal] is the hash computed with the salt
    that the library draws, [None] when it rejects its arguments;
    [jwt_sign sub agora] is the token signed at the instant [agora];
    [chave_valida k v] tells whether [v] is accepted as the value of the
    unique field [k] in a [where]; [usuario_valido u] whether the data of a
    new row are accepted. *)
Class Autenticacao := {
  bcrypt_hash : value → jsstring → option jsstring;
  bcrypt_compare : value → jsstring → option bool;
  jwt_sign : N → N → jsstring;
  chave_valida : Campo → value → bool;
  usuario_valido : Usuario → bool
}.

(** The first row whose column [col] holds [v]. *)
Definition procura (col : Usuario → value) (v : value) (c : Contas)
    : option (N * Usuario) :=
  List.find (λ ir, bool_decide (col ir.2 = v)) (map_to_list (usuarios c)).

Definition ocupado (col : Usuario → value) (v : value) (c : Contas) : bool :=
  match procura col v c with Some _ => true | None => false end.

(** [prisma.usuario.findUnique({ where: { <k>: v } })] *)
Definition usuario_findUnique `{Autenticacao}
    (k : Campo) (v : value) : IOc (option (N * Usuario)) :=
  if chave_valida k v then acesso;; le (procura (coluna k) v)
  else lanca Rejeitado.

(** [prisma.usuario.create({ data })]: [email] and [cpf] are unique fields
    ([findUnique] is only offered on those), so the table refuses a row
    that repeats one. *)
Definition usuario_create `{Autenticacao} (u : Usuario)
    : IOc (N * Usuario) :=
  if usuario_valido u then
    acesso;;
    repetido ← le (λ c, ocupado email (email u) c || ocupado cpf (cpf u) c);
    if repetido : bool then lanca Conflito
    else
      id ← le proximoUsuario;
      grava (λ c, {| usuarios := <[id := u]> (usuarios c);
                     proximoUsuario := N.succ id |});;
      mret (id, u)
  else lanca Rejeitado.

Inductive Motivo :=
| EmailJaCadastrado                       (* "Email já cadastrado" *)
| CpfJaCadastrado                         (* "CPF já cadastrado" *)
| CredenciaisInvalidas                    (* "Credenciais inválidas" *)
| Mensagem (e : Excecao).                 (* e.message *)

Inductive Resposta :=
| Cadastrado (id : N) (email nome : value)
    (* res.json({ id, email, nome }) *)
| Autenticado (token : jsstring) (id : N) (email nomeCompleto : value)
    (* res.json({ token, user: { id, email, nomeCompleto } }) *)
| Erro400 (erro : Motivo)                 (* res.status(400).json({ erro }) *)
| Erro401 (erro : Motivo).                (* res.status(401).json({ erro }) *)

(** [app.post("/auth/signup", ...)], with the salt that [bcrypt.hash]
    draws.  The body is taken apart before the [try]: when [req.body] is
    undefined the handler itself rejects (a body parser that supplies an
    empty object gives a body whose fields are all undefined). *)
Definition signup `{Autenticacao} (sal : jsstring) (req : option Cadastro)
    : IOc Resposta :=
  b ← exige SemCorpo req;
  tenta
    (existente ← usuario_findUnique Email (c_email b);
     match existente with
     | Some _ => mret (Erro400 EmailJaCadastrado)
     | None =>
         cpfExistente ← usuario_findUnique Cpf (c_cpf b);
         match cpfExistente with
         | Some _ => mret (Erro400 CpfJaCadastrado)
         | None =>
             hash ← exige ArgumentosIlegais (bcrypt_hash (c_senha b) sal);
             user ← usuario_create
                      {| nomeCompleto := c_nomeCompleto b;
                         email := c_email b;
                         senhaHash := hash;
                         telefone := c_telefone b;
                         cpf := c_cpf b;
                         dataNascimento := c_dataNascimento b;
                         endereco := c_endereco b;
                         kycStatus := lit "PENDENTE" |};
             mret (Cadastrado user.1 (email user.2) (nomeCompleto user.2))
         end
     end)
    (λ e, mret (Erro400 (Mensagem e))).

(** [app.post("/auth/login", ...)], at the instant [agora]. *)
Definition login `{Autenticacao} (agora : N) (req : option Cadastro)
    : IOc Resposta :=
  b ← exige SemCorpo req;
  tenta
    (user ← usuario_findUnique Email (c_email b);
     match user with
     | None => mret (Erro401 CredenciaisInvalidas)
     | Some user =>
         ok ← exige ArgumentosIlegais
                (bcrypt_compare (c_senha b) (senhaHash user.2));
         if ok : bool then
           mret (Autenticado (jwt_sign user.1 agora) user.1
                   (email user.2) (nomeCompleto user.2))
         else mret (Erro401 CredenciaisInvalidas)
     end)
    (λ e, mret (Erro401 (Mensagem e))).

(** No two accounts share an email or a CPF, and keys are below the
    counter. *)
Definition contas_ok (c : Contas) : Prop :=
  (∀ i j u v, usuarios c !! i = Some u → usuarios c !! j = Some v →
     email u = email v ∨ cpf u = cpf v → i = j)
  ∧ ∀ i u, usuarios c !! i = Some u → i < proximoUsuario c.

(** One request to a route under [/auth]. *)
Inductive pedido_conta `{Autenticacao} : Contas → Contas → Prop :=
| cadastrar sal req fs c : pedido_conta c (estado (signup sal req fs c))
| entrar agora req fs c : pedido_conta c (estado (login agora req fs c)).

(** The row that [signup] inserts. *)
Definition novo_usuario (b : Cadastro) (hash : jsstring) : Usuario :=
  {| nomeCompleto := c_nomeCompleto b; email := c_email b;
     senhaHash := hash; telefone := c_telefone b; cpf := c_cpf b;
     dataNascimento := c_dataNascimento b; endereco := c_endereco b;
     kycStatus := lit "PENDENTE" |}.

Definition com_usuario (u : Usuario) (c : Contas) : Contas :=
  {| usuarios := <[proximoUsuario c := u]> (usuarios c);
     proximoUsuario := N.succ (proximoUsuario c) |}.

(** The sign-up route as a decision tree over its checks and the outcome
    of its three calls to the store. *)
Definition signup_tree `{Autenticacao} (sal : jsstring) (b : Cadastro)
    : IOc Resposta := λ fs c,
  if negb (chave_valida Email (c_email b)) then
    (inr (Erro400 (Mensagem Rejeitado)), c, fs)
  else if falha fs then (inr (Erro400 (Mensagem ForaDoAr)), c, tail fs)
  else match procura email (c_email b) c with
  | Some _ => (inr (Erro400 EmailJaCadastrado), c, tail fs)
  | None =>
  if negb (chave_valida Cpf (c_cpf b)) then
    (inr (Erro400 (Mensagem Rejeitado)), c, tail fs)
  else if falha (tail fs) then
    (inr (Erro400 (Mensagem ForaDoAr)), c, tail (tail fs))
  else match procura cpf (c_cpf b) c with
  | Some _ => (inr (Erro400 CpfJaCadastrado), c, tail (tail fs))
  | None =>
  match bcrypt_hash (c_senha b) sal with
  | None => (inr (Erro400 (Mensagem ArgumentosIlegais)), c, tail (tail fs))
  | Some hash =>
  if negb (usuario_valido (novo_usuario b hash)) then
    (inr (Erro400 (Mensagem Rejeitado)), c, tail (tail fs))
  else if falha (tail (tail fs)) then
    (inr (Erro400 (Mensagem ForaDoAr)), c, tail (tail (tail fs)))
  else
    (inr (Cadastrado (proximoUsuario c) (c_email b) (c_nomeCompleto b)),
     com_usuario (novo_usuario b hash) c, tail (tail (tail fs)))
  end end end.

(** The log-in route as a decision tree. *)
Definition login_tree `{Autenticacao} (agora : N) (b : Cadastro)
    : IOc Resposta := λ fs c,
  if negb (chave_valida Email (c_email b)) then
    (inr (Erro401 (Mensagem Rejeitado)), c, fs)
  else if falha fs then (inr (Erro401 (Mensagem ForaDoAr)), c, tail fs)
  else match procura email (c_email b) c with
  | None => (inr (Erro401 CredenciaisInvalidas), c, tail fs)
  | Some user =>
      match bcrypt_compare (c_senha b) (senhaHash user.2) with
      | None => (inr (Erro401 (Mensagem ArgumentosIlegais)), c, tail fs)
      | Some false => (inr (Erro401 CredenciaisInvalidas), c, tail fs)
      | Some true =>
          (inr (Autenticado (jwt_sign user.1 agora) user.1
                  (email user.2) (nomeCompleto user.2)), c, tail fs)
      end
  end.

(** ** Concrete data for the further scenarios *)

(** A listing offered in one state of the federation. *)
Definition anuncio_sp : Body :=
  {| titulo := Str (lit "Cachorro perdido"); descricao := Str (lit "Bairro X");
     categoria := Str (lit "pets");
     valorCentavos := Null; prazoISO := Null;
     scope := Str (lit "UF"); uf := Str (lit "SP");
     municipioIbge := Null; latitude := Null; longitude := Null;
     raioMetros := Null |}.

Definition consulta_sp : Query :=
  {| q_scope := Texto (lit "UF"); q_uf := Texto (lit "SP");
     q_municipioIbge := Ausente; q_lat := Ausente; q_lon := Ausente;
     q_raioKm := Ausente; q_categoria := Ausente |}.

(** A password check that keeps the password behind a marker, a token
    service that signs the token [tok] for user 7 (the one that
    [servicos_exemplo] accepts), and a schema whose unique keys are
    strings. *)
#[export] Instance autenticacao_exemplo : Autenticacao :=
  {| bcrypt_hash := λ p _,
       match p with Str s => Some (lit "$2a$" ++ s) | _ => None end;
     bcrypt_compare := λ p h,
       match p with
       | Str s => Some (bool_decide (h = lit "$2a$" ++ s))
       | _ => None
       end;
     jwt_sign := λ id _, if bool_decide (id = 7) then lit "tok" else [];
     chave_valida := λ _ v, match v with Str _ => true | _ => false end;
     usuario_valido := λ _, true |}.

Definition cadastro_exemplo : Cadastro :=
  {| c_nomeCompleto := Str (lit "Ana"); c_email := Str (lit "ana@x.org");
     c_senha := Str (lit "segredo"); c_telefone := Null;
     c_cpf := Str (lit "123"); c_dataNascimento := Str (lit "2000-01-01");
     c_endereco := Null |}.

Definition contas_exemplo : Contas :=
  {| usuarios := ∅; proximoUsuario := 7 |}.

(** * A concrete string library for closed computations *)

Lemma startsWith_map (f : N → N) (s w : jsstring) :
  List.map f w = w → startsWith s w = true →
  startsWith (List.map f s) w = true.
Proof.
  revert s; induction w as [|c w IH]; intros [|d s] Hw Hs; simpl in *;
    try done.
  injection Hw as Hc Hw.
  apply andb_true_iff in Hs as [Hcd Hs]. apply N.eqb_eq in Hcd; subst d.
  rewrite Hc, N.eqb_refl; simpl. by apply IH.
Qed.

Lemma includes_map (f : N → N) (s w : jsstring) :
  List.map f w = w → includes s w = true →
  includes (List.map f s) w = true.
Proof.
  intros Hw. induction s as [|d s IH]; simpl; intros Hs.
  - rewrite orb_false_r in Hs |- *. by apply (startsWith_map f []).
  - apply orb_true_iff in Hs as [Hs|Hs]; apply orb_true_iff.
    + left. by apply (startsWith_map f (d :: s)).
    + right. by apply IH.
Qed.

Lemma caseless_map (w : jsstring) :
  Forall caseless w → List.map lower_latin1 w = w.
Proof.
  induction 1 as [|c w [_ Hc] _ IH]; simpl; [done|]. by rewrite Hc, IH.
Qed.

Lemma startsWith_app_l (s c w : jsstring) :
  startsWith s w = true → startsWith (s ++ c) w = true.
Proof.
  revert s; induction w as [|a w IH]; intros [|d s]; simpl; try done.
  intros [-> Hs]%andb_true_iff. by rewrite (IH _ Hs).
Qed.

Lemma includes_app_l (s c w : jsstring) :
  includes s w = true → includes (s ++ c) w = true.
Proof.
  induction s as [|d s IH]; simpl.
  - rewrite orb_false_r. intros Hw. destruct w; [|done]. by destruct c.
  - intros [Hs|Hs]%orb_true_iff; apply orb_true_iff.
    + left. by apply (startsWith_app_l (d :: s)).
    + right. by apply IH.
Qed.

Lemma includes_map_app (s c w : jsstring) :
  Forall caseless w → includes (List.map lower_latin1 s) w = true →
  includes (List.map lower_latin1 (s ++ c)) w = true.
Proof. intros _ Hs. rewrite map_app. by apply includes_app_l. Qed.

(** The unit-wise Latin-1 mapping, extended by the identity: exact on every
    text whose code units are below 256. *)
#[export] Instance latin1_strings : StringPrototype :=
  {| toLowerCase := List.map lower_latin1;
     toLowerCase_latin1 := λ s _, eq_refl;
     toLowerCase_includes := λ s w Hw, includes_map _ s w (caseless_map w Hw);
     toLowerCase_includes_app := includes_map_app |}.

(** ** States of the worked scenarios *)

(** A state from which the worked scenarios start: one listing created
    through the route, its job delivered once. *)
Definition mundo_exemplo : Mundo :=
  mundo (worker {| job_recompensaId := 1 |} []
    (mundo (post_recompensas (pedido (Some (corpo (lit "matar") (lit "x"))))
              [] mundo_vazio))).

(** The store after the listing [anuncio_sp] was created and approved. *)
Definition mundo_feed : Mundo :=
  mundo (worker {| job_recompensaId := 1 |} []
    (mundo (post_recompensas (pedido (Some anuncio_sp)) [] mundo_vazio))).

(** The element of the feed for that listing. *)
Definition item_sp : Item := item (1, veredito PUBLICADA 0 (nova 7 anuncio_sp)).

(** ** The model on sample inputs *)

(** A digit run matches the pattern only as a whole word: next to a letter
    or an underscore it does not, before [.] or [,] or a space it does. *)
Example valores_samples :
  test valores (lit "12abc") = false
  ∧ test valores (lit "12.345abc") = true
  ∧ test valores (lit "r$ 1.000,00") = true
  ∧ test valores (lit "x12") = false
  ∧ test valores (lit "1_") = false
  ∧ test valores (lit "urgente") = false.
Proof. repeat split; by vm_compute. Qed.

Example evaluateText_sample :
  evaluateText (Str (lit "MATAR por senha, 1.000,00 urgente"))
  = Some {| score := 140;
            flags := [lit "BANNED:matar"; lit "SENSITIVE:senha"] |}.
Proof. by vm_compute. Qed.

(** Lower-casing reaches the Latin-1 letters: [CRIANÇA] is flagged. *)
Example evaluateText_cedilla :
  evaluateText (Str (lit "CRIAN" ++ [199] ++ lit "A"))
  = Some {| score := 100;
            flags := [lit "BANNED:crian" ++ [c_cedilla] ++ lit "a"] |}.
Proof. by vm_compute. Qed.

Example evaluateText_number :
  evaluateText (Number (NumOther (lit "42")))
  = Some {| score := 5; flags := [] |}.
Proof. by vm_compute. Qed.

Example replace_first :
  replace (lit "Bearer Bearer x") (lit "Bearer ") [] = lit "Bearer x".
Proof. by vm_compute. Qed.

Example join_sample :
  join (lit ", ") [lit "a"; lit "b"; lit "c"] = lit "a, b, c".
Proof. by vm_compute. Qed.

(** ** What the currency pattern matches *)

Section Valores.
Variable s : jsstring.

Lemma ends_Digit i k :
  In k (ends s Digit i) ↔ k = S i ∧ digit_at s i = true.
Proof.
  unfold digit_at. cbn [ends].
  destruct (s !! i) as [c|]; [destruct (is_digit c)|]; cbn [In];
    intuition congruence.
Qed.

Lemma digit_at_lt i : digit_at s i = true → (i < length s)%nat.
Proof.
  unfold digit_at. destruct (s !! i) as [c|] eqn:Hi; [|done].
  intros _. by apply lookup_lt_Some in Hi.
Qed.

Lemma digit_at_word i : digit_at s i = true → word_at s i = true.
Proof.
  unfold digit_at, word_at, is_word. destruct (s !! i) as [c|]; [|done].
  by intros ->.
Qed.

Lemma digits_between_cons i j :
  digit_at s i = true → digits_between s (S i) j → digits_between s i j.
Proof.
  intros Hi Hj k Hk. destruct (decide (k = i)) as [->|]; [done|].
  apply Hj. lia.
Qed.

Lemma iter_Digit n i k :
  In k (iter (ends s Digit) n i) → (i ≤ k)%nat ∧ digits_between s i k.
Proof.
  revert i. induction n as [|n IH]; intros i; cbn [iter In].
  - intros [<-|[]]. split; [done|]. intros k Hk. lia.
  - intros [<-|Hin]; [split; [done|]; intros k Hk; lia|].
    apply in_flat_map in Hin as (j & Hj & Hk).
    apply ends_Digit in Hj as [-> Hi].
    rewrite (proj2 (Nat.ltb_lt i (S i))) in Hk by lia.
    destruct (IH _ Hk) as [Hle Hd]. split; [lia|].
    by apply digits_between_cons.
Qed.

Lemma rep_Digit lo hi i k :
  In k (rep (ends s Digit) lo hi i) →
  (i + lo ≤ k)%nat ∧ digits_between s i k.
Proof.
  revert hi i. induction lo as [|lo IH]; intros hi i.
  - destruct hi; cbn [rep]; intros Hk%iter_Digit;
      (split; [lia | tauto]).
  - destruct hi as [|hi]; cbn [rep]; [done|].
    intros (j & Hj & Hk)%in_flat_map.
    apply ends_Digit in Hj as [-> Hi].
    destruct (IH _ _ Hk) as [Hle Hd]. split; [lia|].
    by apply digits_between_cons.
Qed.

Lemma iter_Digit_complete n i j :
  digits_between s i j → (i ≤ j)%nat → (j - i ≤ n)%nat →
  In j (iter (ends s Digit) n i).
Proof.
  revert i. induction n as [|n IH]; intros i Hd Hle Hn; cbn [iter In].
  - left. lia.
  - destruct (decide (i = j)) as [->|Hne]; [by left|]. right.
    apply in_flat_map. exists (S i). split.
    + apply ends_Digit. split; [done|]. apply Hd. lia.
    + rewrite (proj2 (Nat.ltb_lt i (S i))) by lia.
      apply IH; [|lia..]. intros k Hk. apply Hd. lia.
Qed.

Lemma ends_Chr c i k :
  In k (ends s (Chr c) i) ↔ k = S i ∧ s !! i = Some c.
Proof.
  cbn [ends]. destruct (s !! i) as [d|]; [|cbn [In]; intuition congruence].
  destruct (N.eqb_spec c d) as [->|Hne]; cbn [In]; intuition congruence.
Qed.

Lemma ends_WordB i k :
  In k (ends s WordB i) ↔ k = i ∧ boundary s i = true.
Proof.
  cbn [ends]. destruct (boundary s i); cbn [In]; intuition congruence.
Qed.

(** A repetition either stops at once or starts with one more match. *)
Lemma iter_head f n i k :
  In k (iter f n i) → k = i ∨ ∃ j, In j (f i).
Proof.
  destruct n; cbn [iter In]; [intuition|].
  intros [<-|(j & Hj & _)%in_flat_map]; eauto.
Qed.

Lemma boundary_after_digits i k c :
  (i < k)%nat → digits_between s i k → s !! k = Some c →
  is_word c = false → boundary s k = true.
Proof.
  intros Hik Hd Hk Hc. destruct k as [|k]; [lia|].
  unfold boundary. rewrite (digit_at_word k) by (apply Hd; lia).
  unfold word_at. by rewrite Hk, Hc.
Qed.

(** What follows the leading digits in a match of the pattern: nothing,
    a dot or a comma. *)
Lemma ends_valores_digits i e :
  In e (ends s valores i) →
  boundary s i = true
  ∧ ∃ k, (i < k)%nat ∧ digits_between s i k
         ∧ (k = e ∧ boundary s e = true
            ∨ s !! k = Some 46 ∨ s !! k = Some 44).
Proof.
  unfold valores. cbn [ends].
  intros (i' & [-> Hb]%ends_WordB & He)%in_flat_map. split; [done|].
  apply in_flat_map in He as (k & Hk & He).
  apply in_flat_map in He as (m & Hm & [-> Hbe]%ends_WordB).
  assert (m = k ∨ s !! k = Some 44) as Hcomma.
  { destruct Hm as [<-|(j & [-> Hj]%ends_Chr & _)%in_flat_map]; auto. }
  apply in_app_or in Hk as [Hk|Hk].
  - apply in_flat_map in Hk as (k1 & Hk1 & Hk).
    apply rep_Digit in Hk1 as [Hle Hd]. exists k1.
    split_and!; [lia | done |].
    apply iter_head in Hk as [->|(j & Hj)].
    + destruct Hcomma as [->|Hc]; auto.
    + apply in_flat_map in Hj as (j' & [-> Hdot]%ends_Chr & _). auto.
  - apply in_flat_map in Hk as (j & [-> Hi]%ends_Digit & Hk).
    apply iter_Digit in Hk as [Hle Hd]. exists k.
    split_and!; [lia | by apply digits_between_cons |].
    destruct Hcomma as [->|Hc]; auto.
Qed.

Lemma whole_number_ends i j :
  whole_number s i j → In j (ends s valores i).
Proof.
  intros (Hij & Hd & Hbi & Hbj). unfold valores. cbn [ends].
  apply in_flat_map. exists i. split; [by apply ends_WordB|].
  apply in_flat_map. exists j. split.
  - apply in_or_app. right. apply in_flat_map. exists (S i). split.
    + apply ends_Digit. split; [done|]. apply Hd. lia.
    + assert (j ≤ length s)%nat.
      { destruct j as [|j]; [lia|].
        assert (digit_at s j = true) as Hj by (apply Hd; lia).
        apply digit_at_lt in Hj. lia. }
      apply iter_Digit_complete; [|lia..]. intros k Hk. apply Hd. lia.
  - apply in_flat_map. exists j. split; [by left|]. by apply ends_WordB.
Qed.

(** The currency pattern matches exactly the texts in which some run of
    digits is a word of its own. *)
Lemma test_valores_iff :
  test valores s = true ↔ ∃ i j, whole_number s i j.
Proof.
  unfold test. rewrite existsb_exists. split.
  - intros (i & _ & Hi).
    destruct (ends s valores i) as [|e l] eqn:He; [done|].
    assert (In e (ends s valores i)) as Hin by (rewrite He; by left).
    apply ends_valores_digits in Hin as (Hb & k & Hik & Hd & Hk).
    exists i, k. split_and!; [done..|].
    destruct Hk as [[-> Hbe]|[Hk|Hk]]; [done|..];
      by apply (boundary_after_digits i k _ Hik Hd Hk).
  - intros (i & j & Hw). exists i. split.
    + apply in_seq. pose proof Hw as (Hij & Hd & _).
      assert (digit_at s i = true) as Hi by (apply Hd; lia).
      apply digit_at_lt in Hi. lia.
    + apply whole_number_ends in Hw.
      by destruct (ends s valores i).
Qed.
End Valores.

Lemma word_at_app_l (t c : jsstring) (k : nat) :
  (k < length t)%nat → word_at (t ++ c) k = word_at t k.
Proof. intros Hk. unfold word_at. by rewrite lookup_app_l. Qed.

Lemma word_at_app_end (t c : jsstring) :
  starts_apart c → word_at (t ++ c) (length t) = false.
Proof.
  intros Hc. unfold word_at.
  rewrite lookup_app_r, Nat.sub_diag by lia.
  destruct c as [|d c]; [done|]. by apply Hc.
Qed.

Lemma word_at_ge (t : jsstring) (k : nat) :
  (length t ≤ k)%nat → word_at t k = false.
Proof. intros Hk. unfold word_at. by rewrite lookup_ge_None_2. Qed.

Lemma boundary_app (t c : jsstring) (k : nat) :
  starts_apart c → (k ≤ length t)%nat →
  boundary (t ++ c) k = boundary t k.
Proof.
  intros Hc Hk. unfold boundary. f_equal.
  - destruct k as [|k]; [done|]. apply word_at_app_l. lia.
  - destruct (decide (k = length t)) as [->|Hne].
    + by rewrite word_at_app_end, word_at_ge.
    + apply word_at_app_l. lia.
Qed.

Lemma whole_number_app (t c : jsstring) (i j : nat) :
  starts_apart c → whole_number t i j → whole_number (t ++ c) i j.
Proof.
  intros Hc (Hij & Hd & Hbi & Hbj).
  assert (j ≤ length t)%nat as Hj.
  { destruct j as [|j]; [lia|].
    assert (digit_at t j = true) as Hdj by (apply Hd; lia).
    apply digit_at_lt in Hdj. lia. }
  split_and!; [done| |by rewrite boundary_app by (done || lia)..].
  intros k Hk. unfold digit_at. rewrite lookup_app_l by lia. by apply Hd.
Qed.

(** A currency match survives appended content that does not start with
    a word character. *)
Lemma currency_app (t c : jsstring) :
  starts_apart c → currency t = true → currency (t ++ c) = true.
Proof.
  intros Hc. unfold currency. rewrite !test_valores_iff.
  intros (i & j & Hw). exists i, j. by apply whole_number_app.
Qed.

Lemma lower_latin1_word (d : N) :
  is_word d = false → is_word (lower_latin1 d) = false.
Proof.
  unfold lower_latin1.
  destruct (_ || _ || _) eqn:Hup; [|done].
  unfold is_word, is_digit.
  rewrite !orb_true_iff, !andb_true_iff, !N.leb_le in Hup.
  rewrite !orb_false_iff, !andb_false_iff, !N.leb_gt, !N.eqb_neq.
  lia.
Qed.

Lemma starts_apart_lower (c : jsstring) :
  starts_apart c → starts_apart (List.map lower_latin1 c).
Proof.
  intros Hc d. destruct c as [|e c]; [done|]. cbn [List.map head].
  intros [= <-]. by apply lower_latin1_word, Hc.
Qed.

(** * Properties of the scorer *)

Section Scorer.
Context `{StringPrototype}.

Lemma fold_passo tag k t l fl sc :
  fold_left (passo tag k t) l (fl, sc)
  = (fl ++ (app tag <$> matching t l),
     (sc + k * Z.of_nat (length (matching t l)))%Z).
Proof.
  revert fl sc. induction l as [|w l IH]; intros fl sc; simpl.
  - by rewrite app_nil_r, Z.mul_0_r, Z.add_0_r.
  - unfold passo at 2. destruct (includes t w); simpl; rewrite IH.
    + f_equal; [by rewrite <- app_assoc | lia].
    + done.
Qed.

Lemma avalia_spec (s : jsstring) : avalia s = evaluate_spec s.
Proof.
  unfold avalia, evaluate_spec. rewrite !fold_passo. cbn [fst snd].
  unfold currency, urgency, points. rewrite app_nil_l. f_equal.
  destruct (test valores _), (includes _ (lit "urgente") || _); lia.
Qed.

Lemma evaluateText_Str (s : jsstring) :
  evaluateText (Str s) = Some (avalia s).
Proof. by destruct s. Qed.

(** On Latin-1 text every string library computes the same verdict. *)
Lemma avalia_latin1 (s : jsstring) :
  Forall latin1 s → avalia s = @avalia latin1_strings s.
Proof.
  intros Hs. unfold avalia. by rewrite (toLowerCase_latin1 s Hs).
Qed.
End Scorer.

Lemma NoDup_BANNED : NoDup BANNED.
Proof. apply (bool_decide_unpack _). by vm_compute. Qed.

Lemma NoDup_SENSITIVE : NoDup SENSITIVE.
Proof. apply (bool_decide_unpack _). by vm_compute. Qed.

Lemma caseless_BANNED : Forall (Forall caseless) BANNED.
Proof.
  repeat (apply Forall_cons; split);
    try apply Forall_nil; split; (try apply N.ltb_lt); by vm_compute.
Qed.

Lemma matching_sublist t l : sublist (matching t l) l.
Proof.
  induction l as [|w l IH]; simpl; [constructor|].
  destruct (includes t w); by constructor.
Qed.

Lemma NoDup_matching t l : NoDup l → NoDup (matching t l).
Proof. intros Hl. eapply sublist_NoDup; [done | apply matching_sublist]. Qed.

Lemma elem_of_matching t l w :
  w ∈ matching t l ↔ w ∈ l ∧ includes t w = true.
Proof.
  unfold matching. rewrite !list_elem_of_In, filter_In. done.
Qed.

Lemma startsWith_app (p s : jsstring) : startsWith (p ++ s) p = true.
Proof. induction p as [|c p IH]; simpl; [done|]. by rewrite N.eqb_refl. Qed.

Lemma banned_flag_BANNED w : startsWith (banned_flag w) (lit "BANNED") = true.
Proof. apply (startsWith_app (lit "BANNED") (58 :: w)). Qed.

Lemma sensitive_flag_BANNED w :
  startsWith (sensitive_flag w) (lit "BANNED") = false.
Proof. done. Qed.

Lemma banned_sensitive_disjoint w v : banned_flag w ≠ sensitive_flag v.
Proof. discriminate. Qed.

Lemma NoDup_flags_spec t :
  NoDup ((banned_flag <$> matching t BANNED)
         ++ (sensitive_flag <$> matching t SENSITIVE)).
Proof.
  apply NoDup_app. split_and!.
  - apply (NoDup_fmap_2 _), NoDup_matching, NoDup_BANNED.
  - intros f [w [-> _]]%list_elem_of_fmap [v [Hv _]]%list_elem_of_fmap.
    by apply banned_sensitive_disjoint in Hv.
  - apply (NoDup_fmap_2 _), NoDup_matching, NoDup_SENSITIVE.
Qed.

Lemma caseless_SENSITIVE : Forall (Forall caseless) SENSITIVE.
Proof.
  repeat (apply Forall_cons; split);
    try apply Forall_nil; split; (try apply N.ltb_lt); by vm_compute.
Qed.

Lemma caseless_urgente : Forall caseless (lit "urgente").
Proof.
  repeat (apply Forall_cons; split);
    try apply Forall_nil; split; (try apply N.ltb_lt); by vm_compute.
Qed.

Lemma caseless_imediato : Forall caseless (lit "imediato").
Proof.
  repeat (apply Forall_cons; split);
    try apply Forall_nil; split; (try apply N.ltb_lt); by vm_compute.
Qed.

Lemma length_matching_mono (t1 t2 : jsstring) (l : list jsstring) :
  (∀ w, w ∈ l → includes t1 w = true → includes t2 w = true) →
  (length (matching t1 l) ≤ length (matching t2 l))%nat.
Proof.
  induction l as [|w l IH]; intros Hl; simpl; [done|].
  assert (length (matching t1 l) ≤ length (matching t2 l))%nat as Hrec.
  { apply IH. intros v Hv. apply Hl. by right. }
  destruct (includes t1 w) eqn:H1.
  - rewrite (Hl w) by (done || left). simpl. lia.
  - destruct (includes t2 w); simpl; lia.
Qed.

Lemma length_matching_strict (t1 t2 w : jsstring) (l : list jsstring) :
  (∀ v, v ∈ l → includes t1 v = true → includes t2 v = true) →
  w ∈ l → includes t1 w = false → includes t2 w = true →
  (S (length (matching t1 l)) ≤ length (matching t2 l))%nat.
Proof.
  induction l as [|v l IH]; intros Hl Hw H1 H2; [by inversion Hw|].
  assert (length (matching t1 l) ≤ length (matching t2 l))%nat as Hrec.
  { apply length_matching_mono. intros u Hu. apply Hl. by right. }
  apply elem_of_cons in Hw as [<-|Hw]; simpl.
  - rewrite H1, H2. simpl. lia.
  - assert (S (length (matching t1 l)) ≤ length (matching t2 l))%nat as Hst.
    { apply IH; [|done..]. intros u Hu. apply Hl. by right. }
    destruct (includes t1 v) eqn:Hv.
    + rewrite (Hl v) by (done || left). simpl. lia.
    + destruct (includes t2 v); simpl; lia.
Qed.

Lemma points_mono (b1 b2 : bool) :
  (b1 = true → b2 = true) → (points b1 ≤ points b2)%Z.
Proof. destruct b1, b2; simpl; intros Hb; first [lia | by discriminate Hb]. Qed.

Lemma latin1_check (s : jsstring) :
  forallb (λ c, c <? 256) s = true → Forall latin1 s.
Proof.
  rewrite forallb_forall, Forall_forall. intros Hs c Hc%list_elem_of_In.
  by apply N.ltb_lt, Hs.
Qed.

(** [matches_le] by evaluation, for closed texts. *)
Lemma matches_le_check (t1 t2 : jsstring) :
  forallb (λ w, implb (includes t1 w) (includes t2 w)) (BANNED ++ SENSITIVE)
  = true →
  implb (currency t1) (currency t2) = true →
  implb (urgency t1) (urgency t2) = true →
  matches_le t1 t2.
Proof.
  intros Hw Hc Hu. split_and!.
  - intros w Hin%list_elem_of_In. rewrite forallb_forall in Hw.
    specialize (Hw w Hin). intros Hw1. by rewrite Hw1 in Hw.
  - intros Hc1. by rewrite Hc1 in Hc.
  - intros Hu1. by rewrite Hu1 in Hu.
Qed.

Section ScorerOrder.
Context `{StringPrototype}.

Lemma score_mono (s1 s2 : jsstring) :
  matches_le (toLowerCase s1) (toLowerCase s2) →
  (score (avalia s1) ≤ score (avalia s2))%Z.
Proof.
  intros (Hw & Hc & Hu). rewrite !avalia_spec. unfold evaluate_spec.
  cbn [score].
  pose proof (length_matching_mono (toLowerCase s1) (toLowerCase s2) BANNED)
    as Hb.
  pose proof (length_matching_mono (toLowerCase s1) (toLowerCase s2) SENSITIVE)
    as Hs.
  pose proof (points_mono _ _ Hc). pose proof (points_mono _ _ Hu).
  assert (length (matching (toLowerCase s1) BANNED)
          ≤ length (matching (toLowerCase s2) BANNED))%nat.
  { apply Hb. intros w Hin. apply Hw, elem_of_app. by left. }
  assert (length (matching (toLowerCase s1) SENSITIVE)
          ≤ length (matching (toLowerCase s2) SENSITIVE))%nat.
  { apply Hs. intros w Hin. apply Hw, elem_of_app. by right. }
  lia.
Qed.

Lemma urgency_app (s c : jsstring) :
  urgency (toLowerCase s) = true → urgency (toLowerCase (s ++ c)) = true.
Proof.
  unfold urgency. intros [Hu|Hu]%orb_true_iff; apply orb_true_iff.
  - left. by apply toLowerCase_includes_app; [apply caseless_urgente|].
  - right. by apply toLowerCase_includes_app; [apply caseless_imediato|].
Qed.

Lemma terms_app (s c w : jsstring) :
  w ∈ BANNED ++ SENSITIVE →
  includes (toLowerCase s) w = true →
  includes (toLowerCase (s ++ c)) w = true.
Proof.
  intros Hin. apply toLowerCase_includes_app.
  apply elem_of_app in Hin as [Hin|Hin].
  - by apply (proj1 (Forall_forall _ _) caseless_BANNED).
  - by apply (proj1 (Forall_forall _ _) caseless_SENSITIVE).
Qed.

(** On Latin-1 text a currency match survives appended content that does
    not start with a word character. *)
Lemma currency_latin1_app (s c : jsstring) :
  Forall latin1 (s ++ c) → starts_apart c →
  currency (toLowerCase s) = true → currency (toLowerCase (s ++ c)) = true.
Proof.
  intros Hsc Hc. pose proof Hsc as [Hs _]%Forall_app.
  rewrite (toLowerCase_latin1 s Hs), (toLowerCase_latin1 (s ++ c) Hsc).
  rewrite map_app. by apply currency_app, starts_apart_lower.
Qed.

(** Appended content that brings a new match pays for a currency match it
    may destroy. *)
Lemma score_new_match (s c : jsstring) :
  new_match (toLowerCase s) (toLowerCase (s ++ c)) →
  (score (avalia s) ≤ score (avalia (s ++ c)))%Z.
Proof.
  intros Hnew. rewrite !avalia_spec. unfold evaluate_spec. cbn [score].
  assert (∀ w, w ∈ BANNED → includes (toLowerCase s) w = true →
               includes (toLowerCase (s ++ c)) w = true)
    as HB by (intros w Hw; apply terms_app, elem_of_app; by left).
  assert (∀ w, w ∈ SENSITIVE → includes (toLowerCase s) w = true →
               includes (toLowerCase (s ++ c)) w = true)
    as HS by (intros w Hw; apply terms_app, elem_of_app; by right).
  pose proof (points_mono _ _ (urgency_app s c)) as Hu.
  revert Hnew HB HS Hu.
  generalize (toLowerCase s) (toLowerCase (s ++ c)). intros t1 t2 Hnew HB HS Hu.
  pose proof (length_matching_mono t1 t2 BANNED HB) as HlB.
  pose proof (length_matching_mono t1 t2 SENSITIVE HS) as HlS.
  assert (0 ≤ points (currency t1) ≤ 5)%Z as Hc1
    by (unfold points; destruct (currency t1); lia).
  assert (0 ≤ points (currency t2))%Z as Hc2
    by (unfold points; destruct (currency t2); lia).
  destruct Hnew as [(w & Hw & Hw1 & Hw2)|[[Hu1 Hu2]|Hcur]].
  - apply elem_of_app in Hw as [Hw|Hw].
    + pose proof (length_matching_strict t1 t2 w BANNED HB Hw Hw1 Hw2). lia.
    + pose proof (length_matching_strict t1 t2 w SENSITIVE HS Hw Hw1 Hw2).
      lia.
  - rewrite Hu1, Hu2.
    change (points false) with 0%Z. change (points true) with 5%Z. lia.
  - rewrite Hcur. change (points true) with 5%Z. lia.
Qed.
End ScorerOrder.

(** * The worker, call by call *)

Lemma chamada_eq fs w :
  chamada fs w = (if falha fs then inl Indisponivel else inr (), w, tail fs).
Proof. by destruct fs as [|[] fs]. Qed.

Lemma sem_falhas_nil : sem_falhas [].
Proof. constructor. Qed.

Lemma sem_falhas_falha fs : sem_falhas fs → falha fs = false.
Proof. by destruct 1 as [|[] fs]. Qed.

Lemma sem_falhas_tail fs : sem_falhas fs → sem_falhas (tail fs).
Proof. destruct 1; [constructor | done]. Qed.

Section Worker.
Context `{StringPrototype}.

Lemma worker_eq job fs w : worker job fs w = worker_tree job fs w.
Proof.
  unfold worker, worker_tree, prisma.recompensa_findUnique,
    prisma.recompensa_update, prisma.moderacaoEvento_create.
  cbv [mbind IO_bind mret IO_ret gets modify lift throw].
  rewrite chamada_eq. destruct (falha fs); [done|].
  destruct (recompensas w !! job_recompensaId job) as [r|] eqn:Hr; [|done].
  destruct (fullText r) as [s|]; [|done].
  rewrite evaluateText_Str. unfold decisao.
  destruct (existsb _ (flags (avalia s))).
  - rewrite chamada_eq. destruct (falha (tail fs)); [done|].
    rewrite Hr, chamada_eq. by destruct (falha (tail (tail fs))).
  - destruct (40 <=? score (avalia s))%Z.
    + rewrite chamada_eq. by destruct (falha (tail fs)).
    + rewrite chamada_eq. destruct (falha (tail fs)); [done|].
      rewrite Hr, chamada_eq. by destruct (falha (tail (tail fs))).
Qed.
End Worker.

Section Route.
Context `{Servicos}.

Lemma post_eq req fs w : post_recompensas req fs w = post_tree req fs w.
Proof.
  unfold post_recompensas, post_tree, prisma.recompensa_create,
    enqueueRecompensaModeration.
  cbv [catch mbind IO_bind mret IO_ret gets modify lift throw].
  destruct (requireAuth req) as [u|]; [|done].
  destruct (body req) as [b|]; [|done].
  destruct (prisma_validate u b) as [cols|]; [|done].
  rewrite chamada_eq. destruct (falha fs); [done|].
  rewrite chamada_eq. by destruct (falha (tail fs)).
Qed.
End Route.

(** ** The invariant on riskScore *)




Section WorkerFacts.
Context `{StringPrototype}.

(** What a run of the worker can leave in the listing table: nothing
    new, or the verdict on the job's own listing. *)
Lemma worker_recompensas job fs w :
  let id := job_recompensaId job in
  recompensas (mundo (worker job fs w)) = recompensas w
  ∨ ∃ r s, recompensas w !! id = Some r ∧ fullText r = Some s
      ∧ decisao (avalia s) ≠ AJUSTAR
      ∧ recompensas (mundo (worker job fs w))
        = <[id := veredito (novo_status (decisao (avalia s)))
                           (score (avalia s)) r]> (recompensas w).
Proof.
  intros id. rewrite worker_eq. unfold worker_tree. fold id.
  destruct (falha fs); [by left|].
  destruct (recompensas w !! id) as [r|] eqn:Hr; [|by left].
  destruct (fullText r) as [s|] eqn:Hs; [|by left].
  simpl. destruct (falha (tail fs)); [by left|].
  destruct (decisao (avalia s)) eqn:Ha; [|by left|].
  - right. exists r, s. rewrite Ha. split_and!; try done.
    by destruct (falha (tail (tail fs))).
  - right. exists r, s. rewrite Ha. split_and!; try done.
    by destruct (falha (tail (tail fs))).
Qed.

End WorkerFacts.


(** ** Which tier a text falls in *)

Section Tiers.
Context `{StringPrototype}.

Lemma some_BANNED_flag (l l' : list jsstring) :
  existsb (λ f, startsWith f (lit "BANNED"))
          ((banned_flag <$> l) ++ (sensitive_flag <$> l'))
  = match l with [] => false | _ => true end.
Proof.
  destruct l as [|w l].
  - rewrite fmap_nil, app_nil_l. induction l' as [|v l' IH]; [done|].
    rewrite fmap_cons. cbn [existsb]. by rewrite sensitive_flag_BANNED.
  - rewrite fmap_cons. cbn [app existsb]. by rewrite banned_flag_BANNED.
Qed.

Lemma decisao_REJEITAR (s w : jsstring) :
  w ∈ BANNED → includes (toLowerCase s) w = true →
  decisao (avalia s) = REJEITAR.
Proof.
  intros Hw Hs. unfold decisao. rewrite avalia_spec.
  unfold evaluate_spec. cbn [flags].
  rewrite some_BANNED_flag.
  assert (w ∈ matching (toLowerCase s) BANNED) as Hin
    by by apply elem_of_matching.
  by destruct (matching (toLowerCase s) BANNED); [inversion Hin|].
Qed.

Lemma banned_term_survives (s w : jsstring) :
  w ∈ BANNED → includes s w = true → includes (toLowerCase s) w = true.
Proof.
  intros Hw. apply toLowerCase_includes.
  by apply (proj1 (Forall_forall _ _) caseless_BANNED).
Qed.

Lemma count_banned_flag (s w : jsstring) :
  w ∈ BANNED →
  occurrences (banned_flag w) (flags (avalia s))
  = if includes (toLowerCase s) w then 1%nat else 0%nat.
Proof.
  intros Hw. unfold occurrences. rewrite avalia_spec.
  unfold evaluate_spec. cbn [flags].
  destruct (includes (toLowerCase s) w) eqn:Hs.
  - apply NoDup_count_occ'.
    + apply NoDup_ListNoDup, NoDup_flags_spec.
    + apply list_elem_of_In, elem_of_app. left.
      apply list_elem_of_fmap. exists w. split; [done|].
      by apply elem_of_matching.
  - apply count_occ_not_In. rewrite <- list_elem_of_In.
    intros [Hin|Hin]%elem_of_app.
    + apply list_elem_of_fmap in Hin as (v & Hv & Hin).
      apply (inj _) in Hv as <-.
      apply elem_of_matching in Hin as [_ Hin]. congruence.
    + apply list_elem_of_fmap in Hin as (v & Hv & _).
      by apply banned_sensitive_disjoint in Hv.
Qed.

Lemma avalia_vazio : avalia [] = {| score := 0; flags := [] |}.
Proof. rewrite avalia_latin1 by constructor. by vm_compute. Qed.
End Tiers.

(** ** The worker's three tiers *)

Section WorkerTiers.
Context `{StringPrototype}.

(** An undisturbed run on a listing that is present. *)
Lemma worker_sem_falhas job fs w r s :
  let id := job_recompensaId job in
  let av := avalia s in
  let a := decisao av in
  recompensas w !! id = Some r → fullText r = Some s → sem_falhas fs →
  worker job fs w
  = (inr (),
     com_evento (evento id a (motivo_de a av))
       match a with
       | AJUSTAR => w
       | _ => com_recompensas
                (insert id (veredito (novo_status a) (score av) r)) w
       end,
     match a with
     | AJUSTAR => tail (tail fs)
     | _ => tail (tail (tail fs))
     end).
Proof.
  intros id av a Hr Hs Hfs. rewrite worker_eq. unfold worker_tree.
  fold id. rewrite Hr, Hs. fold av a.
  rewrite (sem_falhas_falha fs), (sem_falhas_falha (tail fs)),
    (sem_falhas_falha (tail (tail fs)));
    auto using sem_falhas_tail.
  by destruct a.
Qed.

Lemma dog_avalia : avalia dog_text = {| score := 0; flags := [] |}.
Proof.
  rewrite avalia_latin1; [by vm_compute|].
  apply latin1_check. by vm_compute.
Qed.
End WorkerTiers.


(** ** Reachable states *)

Section Reach.
Context `{StringPrototype} `{Servicos}.

Lemma veredito_coerente r s :
  fullText r = Some s → decisao (avalia s) ≠ AJUSTAR →
  coerente (veredito (novo_status (decisao (avalia s))) (score (avalia s)) r).
Proof. intros Hs Ha. right. by exists s. Qed.

Lemma veredito_id r s :
  fullText r = Some s → terminal (status r) → coerente r →
  veredito (novo_status (decisao (avalia s))) (score (avalia s)) r = r.
Proof.
  intros Hs Ht [[Hst _]|(s' & Hs' & _ & Hst & Hsc)].
  - destruct Ht; congruence.
  - assert (s' = s) as -> by congruence. clear Hs Hs' Ht.
    revert Hst Hsc.
    generalize (novo_status (decisao (avalia s))) (score (avalia s)).
    intros st sc Hst Hsc. destruct r as [c d st0 sc0].
    cbn [status riskScore] in Hst, Hsc. by subst.
Qed.

Lemma bem_formado_vazio : bem_formado mundo_vazio.
Proof. intros id r. cbn [recompensas mundo_vazio]. by rewrite lookup_empty. Qed.

Lemma worker_bem_formado job fs w :
  bem_formado w → bem_formado (mundo (worker job fs w)).
Proof.
  intros Hw id r.
  assert (proximoId (mundo (worker job fs w)) = proximoId w) as ->.
  { rewrite worker_eq. unfold worker_tree.
    repeat (case_match; try done). }
  destruct (worker_recompensas job fs w)
    as [Heq|(r0 & s & Hr0 & Hs & Ha & Heq)]; rewrite Heq; [apply Hw|].
  rewrite lookup_insert. case_decide as Hid; [|apply Hw].
  intros <-%(inj Some). subst id. split; [by apply veredito_coerente|].
  by apply (Hw _ r0).
Qed.

Lemma post_bem_formado req fs w :
  bem_formado w → bem_formado (mundo (post_recompensas req fs w)).
Proof.
  intros Hw. rewrite post_eq. unfold post_tree.
  destruct (requireAuth req) as [u|]; [|done].
  destruct (body req) as [b|]; [|done].
  destruct (prisma_validate u b) as [cols|]; [|done].
  destruct (falha fs); [done|].
  assert (∀ id r,
            <[proximoId w := nova u cols]> (recompensas w) !! id = Some r →
            coerente r ∧ id < N.succ (proximoId w)) as Hnew.
  { intros id r. rewrite lookup_insert. case_decide as Hid.
    - intros <-%(inj Some). subst id. split; [by left | lia].
    - intros Hr. destruct (Hw id r Hr). split; [done | lia]. }
  by destruct (falha (tail fs)).
Qed.

Lemma transicao_bem_formado w w' :
  bem_formado w → transicao w w' → bem_formado w'.
Proof.
  intros Hw Hstep. destruct Hstep as [req fs w|job fs w];
    [by apply post_bem_formado | by apply worker_bem_formado].
Qed.

Lemma alcancavel_bem_formado w : alcancavel w → bem_formado w.
Proof.
  unfold alcancavel. generalize bem_formado_vazio.
  induction 2 as [|w0 w1 w2 Hstep _ IH]; [done|].
  apply IH. by eapply transicao_bem_formado.
Qed.

(** A listing whose text falls in the adjusting tier is still under
    review. *)
Lemma ajustar_em_revisao w id r s :
  bem_formado w → recompensas w !! id = Some r → fullText r = Some s →
  decisao (avalia s) = AJUSTAR →
  status r = EM_REVISAO ∧ riskScore r = None.
Proof.
  intros Hw Hr Hs Ha.
  destruct (Hw id r Hr) as [[Hrev|(s' & Hs' & Ha' & _)] _]; [done|].
  assert (s' = s) as -> by congruence. done.
Qed.

(** On a coherent table a job for a listing with a final status writes
    back the row that is there. *)
Lemma worker_final_noop job fs w r :
  bem_formado w →
  recompensas w !! job_recompensaId job = Some r → terminal (status r) →
  recompensas (mundo (worker job fs w)) = recompensas w.
Proof.
  intros Hw Hr Ht.
  destruct (worker_recompensas job fs w)
    as [Heq|(r0 & s & Hr0 & Hs & Ha & Heq)]; [done|].
  rewrite Heq. assert (r0 = r) as -> by congruence.
  rewrite veredito_id; [by apply insert_id | done.. |].
  by apply (Hw _ _ Hr).
Qed.

Lemma transicao_keeps_final w w' id r :
  bem_formado w → transicao w w' →
  recompensas w !! id = Some r → terminal (status r) →
  recompensas w' !! id = Some r.
Proof.
  intros Hw Hstep Hr Ht. destruct Hstep as [req fs w|job fs w].
  - rewrite post_eq. unfold post_tree.
    repeat (case_match; try done); simpl;
      rewrite lookup_insert_ne; try done;
      destruct (Hw id r Hr); lia.
  - destruct (worker_recompensas job fs w)
      as [Heq|(r0 & s & Hr0 & Hs & Ha & Heq)]; rewrite Heq; [done|].
    rewrite lookup_insert. case_decide as Hid; [|done]. subst id.
    assert (r0 = r) as -> by congruence.
    rewrite veredito_id; [done..|]. by apply (Hw _ _ Hr).
Qed.
End Reach.

(** ** Failed runs and their retry *)

Lemma com_recompensas_insert_insert id r1 r2 w :
  com_recompensas (insert id r1) (com_recompensas (insert id r2) w)
  = com_recompensas (insert id r1) w.
Proof. unfold com_recompensas. cbn. by rewrite insert_insert_eq. Qed.

Section Retry.
Context `{StringPrototype}.

(** Once the verdict is in the table, an undisturbed run of the same
    job ends where an undisturbed run would have ended without it. *)
Lemma worker_retry job w r s :
  let id := job_recompensaId job in
  let av := avalia s in
  let a := decisao av in
  let w1 :=
    com_recompensas (insert id (veredito (novo_status a) (score av) r)) w in
  recompensas w !! id = Some r → fullText r = Some s → a ≠ AJUSTAR →
  worker job [] w1 = worker job [] w.
Proof.
  cbv zeta. intros Hr Hs Ha.
  rewrite (worker_sem_falhas job [] w r s Hr Hs sem_falhas_nil).
  rewrite (worker_sem_falhas job []
             (com_recompensas
                (insert (job_recompensaId job)
                   (veredito (novo_status (decisao (avalia s)))
                             (score (avalia s)) r)) w)
             _ s (lookup_insert_eq (recompensas w) _ _) Hs sem_falhas_nil).
  revert Ha. generalize (avalia s). intros av Ha.
  destruct (decisao av); [|done|];
    cbn [novo_status veredito criadorId dados];
    by rewrite com_recompensas_insert_insert.
Qed.

(** Where a failed run on a listing that is present leaves the state. *)
Lemma worker_falha_mundo job fs w r s e :
  let id := job_recompensaId job in
  let av := avalia s in
  let a := decisao av in
  recompensas w !! id = Some r → fullText r = Some s →
  resultado (worker job fs w) = inl e →
  mundo (worker job fs w) = w
  ∨ a ≠ AJUSTAR
    ∧ mundo (worker job fs w)
      = com_recompensas (insert id (veredito (novo_status a) (score av) r)) w.
Proof.
  cbv zeta. intros Hr Hs. rewrite worker_eq. unfold worker_tree.
  rewrite Hr, Hs. cbv zeta. generalize (avalia s). intros av.
  destruct (decisao av) eqn:Ha; destruct (falha fs), (falha (tail fs)),
    (falha (tail (tail fs))); cbn [resultado mundo fst snd]; try done; auto.
Qed.

(** Without failures the schedule that is left does not matter. *)
Lemma worker_sem_falhas_nil job fs w :
  sem_falhas fs →
  resultado (worker job fs w) = resultado (worker job [] w)
  ∧ mundo (worker job fs w) = mundo (worker job [] w).
Proof.
  intros Hfs. rewrite !worker_eq. unfold worker_tree.
  rewrite (sem_falhas_falha fs), (sem_falhas_falha (tail fs)),
    (sem_falhas_falha (tail (tail fs))) by auto using sem_falhas_tail.
  cbn [falha tail].
  destruct (recompensas w !! job_recompensaId job) as [r|]; [|done].
  destruct (fullText r) as [s|]; [|done].
  cbv zeta. generalize (avalia s). intros av. by destruct (decisao av).
Qed.

(** When an attempt fails on a call and the calls of the next attempt go
    through, the queue's retry completes the job as a single undisturbed
    run would have. *)
Lemma processar_retry job fs w r s e n :
  recompensas w !! job_recompensaId job = Some r → fullText r = Some s →
  resultado (worker job fs w) = inl e →
  sem_falhas (agenda (worker job fs w)) →
  resultado (processar (S (S n)) job fs w) = inr true
  ∧ mundo (processar (S (S n)) job fs w) = mundo (worker job [] w).
Proof.
  intros Hr Hs He Hfs.
  pose proof (worker_falha_mundo job fs w r s e Hr Hs He) as Hw'.
  pose proof (worker_retry job w r s Hr Hs) as Hretry.
  pose proof (worker_sem_falhas job [] w r s Hr Hs sem_falhas_nil) as Hclean.
  cbv zeta in Hw', Hretry, Hclean.
  cbn [processar]. cbv [catch mbind IO_bind mret IO_ret].
  destruct (worker job fs w) as [[[e'|[]] w'] fs'] eqn:Hrun; [|done].
  cbn [resultado mundo agenda fst snd] in He, Hfs, Hw'.
  destruct (worker_sem_falhas_nil job fs' w' Hfs) as [Hres Hmun].
  assert (worker job [] w' = worker job [] w) as Hsame.
  { destruct Hw' as [->|[Ha ->]]; [done | by apply Hretry]. }
  rewrite Hsame, Hclean in Hres, Hmun.
  destruct (worker job fs' w') as [[[e''|[]] w''] fs''];
    cbn [resultado mundo fst snd] in Hres, Hmun; [done|].
  by rewrite Hclean.
Qed.
End Retry.

(** ** The effects of a run, field by field *)

Section WorkerEffects.
Context `{StringPrototype}.

(** What a run of the worker on a listing that is present does to the
    table and to the ledger, whatever calls fail, by the fields that are
    written. *)
Lemma worker_efeitos job fs w r s :
  let id := job_recompensaId job in
  let av := avalia s in
  let a := decisao av in
  let x := worker job fs w in
  let ev := {| recompensaId := id; recursoTipo := lit "Recompensa";
               recursoId := id; acao := a; motivo := motivo_de a av |} in
  recompensas w !! id = Some r → fullText r = Some s →
  (∀ i, i ≠ id → recompensas (mundo x) !! i = recompensas w !! i)
  ∧ (∃ r', recompensas (mundo x) !! id = Some r'
        ∧ dados r' = dados r ∧ criadorId r' = criadorId r
        ∧ (r' = r
           ∨ a ≠ AJUSTAR ∧ status r' = novo_status a
             ∧ riskScore r' = Some (score av))
        ∧ (resultado x = inr () → a ≠ AJUSTAR →
           status r' = novo_status a ∧ riskScore r' = Some (score av)))
  ∧ (a = AJUSTAR → recompensas (mundo x) = recompensas w)
  ∧ (eventos (mundo x) = eventos w ∨ eventos (mundo x) = eventos w ++ [ev])
  ∧ (resultado x = inr () → eventos (mundo x) = eventos w ++ [ev])
  ∧ (sem_falhas fs → resultado x = inr ()).
Proof.
  cbv zeta. intros Hr Hs.
  assert (sem_falhas fs →
          falha fs = false ∧ falha (tail fs) = false
          ∧ falha (tail (tail fs)) = false) as Hsf.
  { intros Hfs. split_and!; auto using sem_falhas_falha, sem_falhas_tail. }
  rewrite worker_eq. unfold worker_tree. rewrite Hr, Hs. cbv zeta.
  unfold evento. generalize (avalia s). intros av.
  destruct (falha fs) eqn:Hf1;
    [|destruct (falha (tail fs)) eqn:Hf2;
      [|destruct (decisao av) eqn:Ha;
        [destruct (falha (tail (tail fs))) eqn:Hf3| |
         destruct (falha (tail (tail fs))) eqn:Hf3]]];
    cbn [resultado mundo fst snd recompensas eventos com_evento
         com_recompensas novo_status];
    (split_and!;
     [ intros i Hi; by rewrite ?lookup_insert_ne
     | rewrite ?lookup_insert_eq; eexists; split; [done|];
       cbn [veredito dados criadorId status riskScore];
       split_and!; try done; auto
     | try done
     | auto
     | try done
     | intros (? & ? & ?)%Hsf; congruence ]).
Qed.
End WorkerEffects.

(** * The claims

    The theorems hold for every string library obeying the laws of
    [StringPrototype] and for every token service and schema.  Closed
    statements are evaluated with [latin1_strings] and [servicos_exemplo];
    the texts they use lie below U+0100, where [latin1_strings] is exact. *)

(** C1. Whenever the text of a listing contains a banned term, the flags
    of the scorer hold exactly one [BANNED:<term>] for each banned term
    that matches and none for the others, and the tier that the worker takes
    on a job for that listing is the rejecting one whatever else the text
    says: whatever calls fail, the run leaves the listing as it was or
    BANIDA with the score as riskScore, touches no other listing, and leaves
    the ledger as it was or longer by the one event REJEITAR whose reason is
    the joined flags; a run that resolves has made the listing BANIDA with
    the score and has appended that event; and a run whose calls all go
    through resolves. *)
Theorem banned_text_is_rejected `{StringPrototype}
    (text : jsstring) (w : Mundo) (job : Job) (r : Recompensa)
    (fs : list bool) :
  (∃ b, b ∈ BANNED ∧ includes text b = true) →
  recompensas w !! job_recompensaId job = Some r →
  fullText r = Some text →
  let id := job_recompensaId job in
  let av := avalia text in
  let x := worker job fs w in
  let rejeicao :=
    {| recompensaId := id; recursoTipo := lit "Recompensa"; recursoId := id;
       acao := REJEITAR; motivo := join (lit ", ") (flags av) |} in
  evaluateText (Str text) = Some av
  ∧ (∀ b, b ∈ BANNED → includes text b = true →
       occurrences (banned_flag b) (flags av) = 1%nat)
  ∧ (∀ b, b ∈ BANNED →
       occurrences (banned_flag b) (flags av)
       = if includes (toLowerCase text) b then 1%nat else 0%nat)
  ∧ decisao av = REJEITAR
  ∧ (∃ r', recompensas (mundo x) !! id = Some r'
        ∧ dados r' = dados r ∧ criadorId r' = criadorId r
        ∧ (r' = r ∨ status r' = BANIDA ∧ riskScore r' = Some (score av))
        ∧ (resultado x = inr () →
           status r' = BANIDA ∧ riskScore r' = Some (score av)))
  ∧ (∀ i, i ≠ id → recompensas (mundo x) !! i = recompensas w !! i)
  ∧ (eventos (mundo x) = eventos w
     ∨ eventos (mundo x) = eventos w ++ [rejeicao])
  ∧ (resultado x = inr () → eventos (mundo x) = eventos w ++ [rejeicao])
  ∧ (sem_falhas fs → resultado x = inr ()).
Proof.
  intros (b & Hb & Hin) Hr Htext. cbv zeta.
  assert (decisao (avalia text) = REJEITAR) as Hdec
    by by apply (decisao_REJEITAR text b Hb), banned_term_survives.
  destruct (worker_efeitos job fs w r text Hr Htext)
    as (Hfora & (r' & Hr' & Hd & Hc & Hst & Hok) & _ & Hev & Hev' & Hfs).
  rewrite Hdec in Hst, Hok, Hev, Hev'. cbn [novo_status motivo_de] in *.
  split_and!; [| | |done| |done..].
  - apply evaluateText_Str.
  - intros b' Hb' Hin'. rewrite count_banned_flag by done.
    by rewrite banned_term_survives.
  - intros b' Hb'. by apply count_banned_flag.
  - exists r'. split_and!; [done..| |].
    + destruct Hst as [->|(_ & ? & ?)]; auto.
    + intros Hres. by apply Hok.
Qed.

Lemma banned_text_is_rejected_witness :
  recompensas
    (mundo (worker {| job_recompensaId := 5 |} []
              (com_linha 5 (linha (lit "vendo arma") (lit "senha 10")
                              EM_REVISAO None)))) !! 5
  = Some {| criadorId := 1; dados := corpo (lit "vendo arma") (lit "senha 10");
            status := BANIDA; riskScore := Some 135%Z |}
  ∧ eventos
      (mundo (worker {| job_recompensaId := 5 |} []
                (com_linha 5 (linha (lit "vendo arma") (lit "senha 10")
                                EM_REVISAO None))))
    = [ {| recompensaId := 5; recursoTipo := lit "Recompensa"; recursoId := 5;
           acao := REJEITAR;
           motivo := lit "BANNED:arma, SENSITIVE:senha" |} ].
Proof.
  assert (∃ b, b ∈ BANNED
               ∧ includes (lit "vendo arma" ++ [10] ++ lit "senha 10") b
                 = true)
    as Hb.
  { exists (lit "arma"). split; [|by vm_compute].
    apply (bool_decide_unpack _). by vm_compute. }
  destruct (banned_text_is_rejected
    (lit "vendo arma" ++ [10] ++ lit "senha 10")
    (com_linha 5 (linha (lit "vendo arma") (lit "senha 10") EM_REVISAO None))
    {| job_recompensaId := 5 |}
    (linha (lit "vendo arma") (lit "senha 10") EM_REVISAO None) []
    Hb eq_refl eq_refl)
    as (_ & _ & _ & _ & _ & _ & _ & Hev & Hok).
  split; [by vm_compute|].
  rewrite (Hev (Hok sem_falhas_nil)). by vm_compute.
Defined.

(** C2. In every state reached from the empty store by serving requests
    and delivering jobs (any job, any number of times, under any failures),
    a listing whose status is PUBLICADA or BANIDA stays exactly as it is:
    delivering its job again, whatever calls fail, leaves the table
    unchanged (the update writes the status and the riskScore that are
    already there), and no later request or delivery changes the row.  So a
    listing leaves EM_REVISAO at most once, and never leaves PUBLICADA or
    BANIDA. *)
Theorem final_status_is_final `{StringPrototype} `{Servicos}
    (w : Mundo) (id : N) (r : Recompensa) :
  alcancavel w →
  recompensas w !! id = Some r →
  terminal (status r) →
  (∀ fs, recompensas (mundo (worker {| job_recompensaId := id |} fs w))
         = recompensas w)
  ∧ (∀ w', rtc transicao w w' → recompensas w' !! id = Some r).
Proof.
  intros Hw%alcancavel_bem_formado Hr Ht. split.
  - intros fs. by apply (worker_final_noop _ fs w r).
  - intros w' Hsteps. revert Hw Hr.
    induction Hsteps as [|w0 w1 w2 Hstep _ IH]; intros Hw Hr; [done|].
    apply IH;
      [by eapply transicao_bem_formado | by eapply transicao_keeps_final].
Qed.

Lemma final_status_is_final_witness :
  recompensas
    (mundo (worker {| job_recompensaId := 1 |} []
       (mundo (worker {| job_recompensaId := 1 |} []
          (mundo (post_recompensas
                    (pedido (Some (corpo (lit "matar") (lit "x"))))
                    [] mundo_vazio)))))) !! 1
  = Some (veredito BANIDA 100 (nova 7 (corpo (lit "matar") (lit "x")))).
Proof.
  set (req := pedido (Some (corpo (lit "matar") (lit "x")))).
  set (w0 := mundo (post_recompensas req [] mundo_vazio)).
  set (w1 := mundo (worker {| job_recompensaId := 1 |} [] w0)).
  assert (alcancavel w1) as Hw1.
  { eapply rtc_l; [exact (servir req [] mundo_vazio)|].
    eapply rtc_l; [exact (entregar {| job_recompensaId := 1 |} [] w0)|].
    apply rtc_refl. }
  assert (recompensas w1 !! 1
          = Some (veredito BANIDA 100 (nova 7 (corpo (lit "matar") (lit "x")))))
    as Hr by by vm_compute.
  apply (final_status_is_final w1 1 _ Hw1 Hr (or_intror eq_refl)).
  apply rtc_once, entregar.
Defined.

(** C3, amended. The two writes are separate awaited calls, not one unit.
    A run of the worker that fails leaves the ledger as it was, and the
    table either as it was or with the verdict already written; a rejected
    update fails the run with nothing changed; a rejected ledger append on
    the rejecting or approving tier fails the run after the status and
    riskScore have been committed; a run that succeeds has applied both
    writes; and running the job again without failures after a failed run
    (as the queue does, the job having three attempts) ends in the state of
    a single run without failures. *)
Theorem worker_failure_is_not_atomic `{StringPrototype}
    (w : Mundo) (job : Job) (fs : list bool) (r : Recompensa) (s : jsstring) :
  let id := job_recompensaId job in
  let av := avalia s in
  let a := decisao av in
  let w1 :=
    com_recompensas (insert id (veredito (novo_status a) (score av) r)) w in
  recompensas w !! id = Some r →
  fullText r = Some s →
  (∀ e, resultado (worker job fs w) = inl e →
     eventos (mundo (worker job fs w)) = eventos w
     ∧ (mundo (worker job fs w) = w
        ∨ a ≠ AJUSTAR ∧ mundo (worker job fs w) = w1))
  ∧ (falha fs = false → falha (tail fs) = true →
     worker job fs w = (inl Indisponivel, w, tail (tail fs)))
  ∧ (a ≠ AJUSTAR → falha fs = false → falha (tail fs) = false →
     falha (tail (tail fs)) = true →
     worker job fs w = (inl Indisponivel, w1, tail (tail (tail fs))))
  ∧ (resultado (worker job fs w) = inr () →
     mundo (worker job fs w)
     = com_evento (evento id a (motivo_de a av))
         match a with AJUSTAR => w | _ => w1 end)
  ∧ (∀ e, resultado (worker job fs w) = inl e →
     mundo (worker job [] (mundo (worker job fs w)))
     = mundo (worker job [] w))
  ∧ (∀ e, resultado (worker job fs w) = inl e →
     sem_falhas (agenda (worker job fs w)) →
     resultado (processar attempts job fs w) = inr true
     ∧ mundo (processar attempts job fs w) = mundo (worker job [] w)).
Proof.
  cbv zeta. intros Hr Hs.
  pose proof (λ e, processar_retry job fs w r s e 1 Hr Hs) as Hqueue.
  pose proof (worker_retry job w r s Hr Hs) as Hretry. cbv zeta in Hretry.
  split_and!; [..|exact Hqueue]; clear Hqueue.
  all: rewrite (worker_eq job fs w); unfold worker_tree.
  all: rewrite Hr, Hs; cbv zeta.
  all: revert Hretry; generalize (avalia s); clear Hs; intros av Hretry.
  all: destruct (decisao av) eqn:Ha;
    destruct (falha fs), (falha (tail fs)), (falha (tail (tail fs)));
    cbn [resultado mundo fst snd eventos com_recompensas com_evento];
    intros; try done.
  all: try (split; [done|]); auto.
  all: try (right; split; [done|reflexivity]).
  all: by rewrite Hretry.
Qed.

Lemma worker_failure_is_not_atomic_witness :
  worker {| job_recompensaId := 5 |} [false; false; true]
    (com_linha 5 (linha dog_title dog_description EM_REVISAO None))
  = (inl Indisponivel,
     com_linha 5 (linha dog_title dog_description PUBLICADA (Some 0%Z)),
     []).
Proof.
  pose proof (worker_failure_is_not_atomic
    (com_linha 5 (linha dog_title dog_description EM_REVISAO None))
    {| job_recompensaId := 5 |} [false; false; true]
    (linha dog_title dog_description EM_REVISAO None) dog_text
    eq_refl eq_refl) as (_ & _ & Happend & _).
  rewrite Happend; [by vm_compute | by vm_compute | done..].
Defined.

(** C3, as stated, fails: when the ledger append is rejected the run
    fails, yet the listing has already been published with its riskScore. *)
Lemma failed_append_leaves_status_written :
  ¬ (∀ (w : Mundo) (job : Job) (fs : list bool) (e : Erro),
       resultado (worker job fs w) = inl e →
       recompensas (mundo (worker job fs w)) = recompensas w).
Proof.
  intros Hatomic.
  specialize (Hatomic
    (com_linha 5 (linha dog_title dog_description EM_REVISAO None))
    {| job_recompensaId := 5 |} [false; false; true] Indisponivel).
  assert (recompensas
            (mundo (worker {| job_recompensaId := 5 |} [false; false; true]
               (com_linha 5 (linha dog_title dog_description EM_REVISAO None))))
          !! 5
          = Some (linha dog_title dog_description PUBLICADA (Some 0%Z)))
    as Hafter by by vm_compute.
  rewrite Hatomic in Hafter by by vm_compute.
  by vm_compute in Hafter.
Qed.

(** C4. For every input text, [evaluateText] lower-cases the text, appends
    a flag [BANNED:<term>] and adds 100 for each banned term present as a
    substring, then a flag [SENSITIVE:<term>] and 30 for each sensitive term
    present, adds 5 for a currency-like numeral and 5 for an urgency marker
    (that is, it computes [evaluate_spec] on the string made of its
    input); flags come in the order the word lists are traversed and no
    term contributes twice. *)
Theorem evaluateText_refines_spec `{StringPrototype}
    (v : value) (text : jsstring) :
  evaluateText v = evaluate_spec <$> String_ (or v (Str []))
  ∧ evaluateText (Str text) = Some (evaluate_spec text)
  ∧ sublist (flags (evaluate_spec text))
            ((banned_flag <$> BANNED) ++ (sensitive_flag <$> SENSITIVE))
  ∧ NoDup (flags (evaluate_spec text)).
Proof.
  split_and!.
  - unfold evaluateText.
    destruct (String_ (or v (Str []))) as [s|]; [|done].
    cbn [mbind option_bind fmap option_fmap option_map].
    by rewrite avalia_spec.
  - by rewrite evaluateText_Str, avalia_spec.
  - unfold evaluate_spec. cbn [flags].
    apply sublist_app; apply fmap_sublist, matching_sublist.
  - apply NoDup_flags_spec.
Qed.



(** C6, amended. For the listing with title "Help find my dog" and
    description "Reward for safe return, urgent!" the scorer returns score
    0 with no flags (the urgency markers of the code are "urgente" and
    "imediato"; "urgent!" is neither), which is below 40, so the worker
    takes the approving tier: whatever calls fail, the run leaves the
    listing as it was or PUBLICADA with riskScore 0, and the ledger as it
    was or longer by the one event APROVAR with reason "auto"; a run that
    resolves has published the listing and appended that event; and a run
    whose calls all go through resolves. *)
Theorem dog_listing_is_published `{StringPrototype}
    (w : Mundo) (id : N) (r : Recompensa) (fs : list bool) :
  recompensas w !! id = Some r →
  titulo (dados r) = Str dog_title →
  descricao (dados r) = Str dog_description →
  let x := worker {| job_recompensaId := id |} fs w in
  let aprovacao :=
    {| recompensaId := id; recursoTipo := lit "Recompensa"; recursoId := id;
       acao := APROVAR; motivo := lit "auto" |} in
  fullText r = Some dog_text
  ∧ evaluateText (Str dog_text) = Some {| score := 0; flags := [] |}
  ∧ (∃ r', recompensas (mundo x) !! id = Some r'
        ∧ dados r' = dados r ∧ criadorId r' = criadorId r
        ∧ (r' = r ∨ status r' = PUBLICADA ∧ riskScore r' = Some 0%Z)
        ∧ (resultado x = inr () →
           status r' = PUBLICADA ∧ riskScore r' = Some 0%Z))
  ∧ (∀ i, i ≠ id → recompensas (mundo x) !! i = recompensas w !! i)
  ∧ (eventos (mundo x) = eventos w
     ∨ eventos (mundo x) = eventos w ++ [aprovacao])
  ∧ (resultado x = inr () → eventos (mundo x) = eventos w ++ [aprovacao])
  ∧ (sem_falhas fs → resultado x = inr ()).
Proof.
  intros Hr Ht Hd. cbv zeta.
  assert (fullText r = Some dog_text) as Htext
    by (unfold fullText; by rewrite Ht, Hd).
  destruct (worker_efeitos {| job_recompensaId := id |} fs w r dog_text
              Hr Htext)
    as (Hfora & (r' & Hr' & Hd' & Hc & Hst & Hok) & _ & Hev & Hev' & Hfs).
  rewrite dog_avalia in Hst, Hok, Hev, Hev'.
  change (decisao {| score := 0; flags := [] |}) with APROVAR in *.
  cbn [novo_status motivo_de score job_recompensaId] in *.
  split_and!; [done | by rewrite evaluateText_Str, dog_avalia | |done..].
  exists r'. split_and!; [done..| |].
  - destruct Hst as [->|(_ & ? & ?)]; auto.
  - intros Hres. by apply Hok.
Qed.

Lemma dog_listing_is_published_witness :
  recompensas
    (mundo (worker {| job_recompensaId := 5 |} []
              (com_linha 5 (linha dog_title dog_description EM_REVISAO None))))
    !! 5
  = Some {| criadorId := 1; dados := corpo dog_title dog_description;
            status := PUBLICADA; riskScore := Some 0%Z |}
  ∧ eventos
      (mundo (worker {| job_recompensaId := 5 |} []
                (com_linha 5
                   (linha dog_title dog_description EM_REVISAO None))))
    = [ {| recompensaId := 5; recursoTipo := lit "Recompensa"; recursoId := 5;
           acao := APROVAR; motivo := lit "auto" |} ].
Proof.
  destruct (dog_listing_is_published
    (com_linha 5 (linha dog_title dog_description EM_REVISAO None)) 5
    (linha dog_title dog_description EM_REVISAO None) []
    eq_refl eq_refl eq_refl) as (_ & _ & _ & _ & _ & Hev & Hok).
  split; [by vm_compute|].
  by rewrite (Hev (Hok sem_falhas_nil)).
Defined.

(** C6, as stated, fails: the score of that text is not at least 5. *)
Lemma dog_score_is_not_five :
  ¬ (∃ av, evaluateText (Str dog_text) = Some av
           ∧ (5 ≤ score av)%Z ∧ (score av < 40)%Z).
Proof.
  intros (av & Hav & H5 & _). rewrite evaluateText_Str, dog_avalia in Hav.
  injection Hav as <-. simpl in H5. lia.
Qed.

(** C7, amended. The route checks no field itself: it hands the fields of
    the body to [prisma.recompensa.create] and answers 400 with the
    validation error exactly when the client refuses the data against the
    schema, at once, with nothing inserted and nothing enqueued (as when
    there is no body, or when the call to the store is rejected).  When the
    insertion goes through, a listing EM_REVISAO without riskScore has been
    stored under the next id for the user of the token, no other listing
    and no event being touched; the route then enqueues one job for that
    id and answers with the id and the status, or, when the queue rejects
    the job, answers 400 with the listing stored and no job.  An answer
    with an id is only given when both have gone through, as they do when
    no call is rejected. *)
Theorem post_recompensas_validates `{Servicos}
    (req : Request) (userId : N) (fs : list bool) (w : Mundo) :
  requireAuth req = Some userId →
  let x := post_recompensas req fs w in
  let id := proximoId w in
  (∀ b, body req = Some b →
     (resultado x = inr (Status400 ValidationError)
      ↔ prisma_validate userId b = None))
  ∧ (∀ b, body req = Some b → prisma_validate userId b = None →
     x = (inr (Status400 ValidationError), w, fs))
  ∧ (body req = None → x = (inr (Status400 TypeError), w, fs))
  ∧ (∀ b cols, body req = Some b → prisma_validate userId b = Some cols →
     falha fs = true →
     x = (inr (Status400 Indisponivel), w, tail fs))
  ∧ (∀ b cols, body req = Some b → prisma_validate userId b = Some cols →
     falha fs = false →
     recompensas (mundo x) !! id
     = Some {| criadorId := userId; dados := cols;
               status := EM_REVISAO; riskScore := None |}
     ∧ (∀ i, i ≠ id → recompensas (mundo x) !! i = recompensas w !! i)
     ∧ proximoId (mundo x) = N.succ id
     ∧ eventos (mundo x) = eventos w
     ∧ (falha (tail fs) = false →
        resultado x = inr (Json id EM_REVISAO)
        ∧ fila (mundo x) = fila w ++ [{| job_recompensaId := id |}])
     ∧ (falha (tail fs) = true →
        resultado x = inr (Status400 Indisponivel)
        ∧ fila (mundo x) = fila w))
  ∧ (∀ i st, resultado x = inr (Json i st) →
     i = id ∧ st = EM_REVISAO
     ∧ fila (mundo x) = fila w ++ [{| job_recompensaId := i |}]
     ∧ ∃ r, recompensas (mundo x) !! i = Some r
            ∧ criadorId r = userId
            ∧ status r = EM_REVISAO ∧ riskScore r = None)
  ∧ (sem_falhas fs → ∀ b cols, body req = Some b →
     prisma_validate userId b = Some cols →
     resultado x = inr (Json id EM_REVISAO)).
Proof.
  intros Hauth. cbv zeta. rewrite post_eq. unfold post_tree. rewrite Hauth.
  split_and!.
  - intros b ->. destruct (prisma_validate userId b) as [cols|]; [|done].
    destruct (falha fs); [done|]. by destruct (falha (tail fs)).
  - by intros b -> ->.
  - by intros ->.
  - by intros b cols -> -> ->.
  - intros b cols -> -> ->. cbv zeta.
    destruct (falha (tail fs));
      cbn [resultado mundo fst snd recompensas eventos fila proximoId
           com_job com_novo_id com_recompensas];
      (split_and!;
       [ by rewrite lookup_insert_eq
       | intros i Hi; by rewrite lookup_insert_ne
       | done..]).
  - intros i st. destruct (body req) as [b|]; [|done].
    destruct (prisma_validate userId b) as [cols|]; [|done].
    destruct (falha fs); [done|]. destruct (falha (tail fs)); [done|].
    cbn [resultado mundo fst snd recompensas fila com_job com_novo_id
         com_recompensas].
    intros [= <- <-]. split_and!; [done..|].
    eexists. by rewrite lookup_insert_eq.
  - intros Hfs b cols -> ->. cbv zeta.
    by rewrite (sem_falhas_falha fs), (sem_falhas_falha (tail fs))
      by auto using sem_falhas_tail.
Qed.

Lemma post_recompensas_validates_witness :
  recompensas
    (mundo (post_recompensas
              (pedido (Some (corpo dog_title dog_description))) []
              mundo_vazio)) !! 1
  = Some {| criadorId := 7; dados := corpo dog_title dog_description;
            status := EM_REVISAO; riskScore := None |}
  ∧ fila
      (mundo (post_recompensas
                (pedido (Some (corpo dog_title dog_description))) []
                mundo_vazio))
    = [ {| job_recompensaId := 1 |} ].
Proof.
  pose proof (post_recompensas_validates
    (pedido (Some (corpo dog_title dog_description))) 7 [] mundo_vazio
    eq_refl) as (_ & _ & _ & _ & Hok & _).
  destruct (Hok (corpo dog_title dog_description)
              (corpo dog_title dog_description) eq_refl eq_refl eq_refl)
    as (Hrow & _ & _ & _ & Hjob & _).
  split; [exact Hrow|]. by destruct (Hjob eq_refl) as [_ ->].
Defined.

(** C7, as stated, fails: a valid request is not always answered with the
    id and followed by a job.  When the queue rejects the job, the listing
    has been inserted, the answer is 400 and the queue holds no job. *)
Lemma valid_request_can_end_without_job :
  ¬ (∀ (req : Request) (u : N) (b cols : Body) (fs : list bool) (w : Mundo),
       requireAuth req = Some u → body req = Some b →
       prisma_validate u b = Some cols →
       ∃ id, resultado (post_recompensas req fs w) = inr (Json id EM_REVISAO)
             ∧ {| job_recompensaId := id |}
               ∈ fila (mundo (post_recompensas req fs w))).
Proof.
  intros Hall.
  destruct (Hall (pedido (Some (corpo dog_title dog_description))) 7
              (corpo dog_title dog_description)
              (corpo dog_title dog_description) [false; true] mundo_vazio
              eq_refl eq_refl eq_refl) as (id & Hres & _).
  by vm_compute in Hres.
Qed.

(** C8. When the listing of a job is absent from the table, the worker
    changes neither the table nor the ledger, whatever happens to its
    calls, and it completes successfully as soon as the lookup itself goes
    through, so that the queue is done with the job after that one
    attempt. *)
Theorem absent_listing_is_discarded `{StringPrototype}
    (w : Mundo) (job : Job) (fs : list bool) :
  recompensas w !! job_recompensaId job = None →
  mundo (worker job fs w) = w
  ∧ (falha fs = false → worker job fs w = (inr (), w, tail fs))
  ∧ (falha fs = false →
     processar attempts job fs w = (inr true, w, tail fs)).
Proof.
  intros Hr.
  assert (falha fs = false → worker job fs w = (inr (), w, tail fs)) as Hok.
  { rewrite worker_eq. unfold worker_tree. rewrite Hr. by intros ->. }
  split_and!; [|done|].
  - rewrite worker_eq. unfold worker_tree. rewrite Hr.
    by destruct (falha fs).
  - intros Hfs. unfold attempts. cbn [processar].
    cbv [catch mbind IO_bind mret IO_ret]. by rewrite (Hok Hfs).
Qed.

Lemma absent_listing_is_discarded_witness :
  worker {| job_recompensaId := 6 |} []
    (com_linha 5 (linha dog_title dog_description EM_REVISAO None))
  = (inr (), com_linha 5 (linha dog_title dog_description EM_REVISAO None), []).
Proof.
  apply (proj1 (proj2 (absent_listing_is_discarded
           (com_linha 5 (linha dog_title dog_description EM_REVISAO None))
           {| job_recompensaId := 6 |} [] eq_refl))).
  reflexivity.
Defined.

(** C9, amended. Appending content to a text never decreases the score
    when a currency match of the text is not destroyed by it, nor when the
    longer text matches a term or pattern that the text did not match
    (every banned, sensitive and urgency match survives appending; only the
    currency match can be lost), nor, on Latin-1 text, when the content
    does not start with a letter, a digit or an underscore (the currency
    pattern matches a run of digits that is a word of its own, see
    [test_valores_iff]); more generally the score does not decrease
    when the set of matched terms and patterns grows, and two texts that
    match the same terms and patterns get the same score, whatever the
    order in which they occur. *)
Theorem score_monotone_in_matches `{StringPrototype} (s c s1 s2 : jsstring) :
  ((currency (toLowerCase s) = true →
    currency (toLowerCase (s ++ c)) = true) →
   (score (avalia s) ≤ score (avalia (s ++ c)))%Z)
  ∧ (new_match (toLowerCase s) (toLowerCase (s ++ c)) →
     (score (avalia s) ≤ score (avalia (s ++ c)))%Z)
  ∧ (Forall latin1 (s ++ c) → starts_apart c →
     (score (avalia s) ≤ score (avalia (s ++ c)))%Z)
  ∧ (matches_le (toLowerCase s1) (toLowerCase s2) →
     (score (avalia s1) ≤ score (avalia s2))%Z)
  ∧ (matches_le (toLowerCase s1) (toLowerCase s2) →
     matches_le (toLowerCase s2) (toLowerCase s1) →
     score (avalia s1) = score (avalia s2)).
Proof.
  split_and!.
  - intros Hc. apply score_mono. split_and!; [|done|apply urgency_app].
    intros w Hw. by apply terms_app.
  - apply score_new_match.
  - intros Hsc Hc. apply score_mono. split_and!.
    + intros w Hw. by apply terms_app.
    + by apply currency_latin1_app.
    + apply urgency_app.
  - apply score_mono.
  - intros H12 H21. apply Z.le_antisymm; by apply score_mono.
Qed.

Lemma score_monotone_in_matches_witness :
  (score (avalia (lit "5")) ≤ score (avalia (lit "5" ++ lit " urgente")))%Z
  ∧ (score (avalia (lit "5")) ≤ score (avalia (lit "5" ++ lit "urgente")))%Z
  ∧ (score (avalia (lit "senha matar")) = score (avalia (lit "matar senha"))).
Proof.
  split_and!.
  - apply (proj1 (score_monotone_in_matches
                    (lit "5") (lit " urgente") [] [])).
    by vm_compute.
  - apply (proj1 (proj2 (score_monotone_in_matches
                           (lit "5") (lit "urgente") [] []))).
    right. left. by vm_compute.
  - apply (proj2 (proj2 (proj2 (proj2 (score_monotone_in_matches
                                         [] [] (lit "senha matar")
                                         (lit "matar senha")))))).
    + apply matches_le_check; by vm_compute.
    + apply matches_le_check; by vm_compute.
Defined.

(** C9, as stated, fails: appending an urgency marker right after a
    number destroys the currency match, and the marker was already counted. *)
Lemma appending_marked_content_can_lower_score :
  ¬ (∀ s c : jsstring, marked (toLowerCase c) →
       (score (avalia s) ≤ score (avalia (s ++ c)))%Z).
Proof.
  intros Hm.
  assert (marked (toLowerCase (lit "urgente"))) as Hc
    by (right; right; by vm_compute).
  specialize (Hm (lit "urgente 5") (lit "urgente") Hc).
  by vm_compute in Hm.
Qed.

(** C10, amended. [evaluateText] returns a verdict for every value except
    an object whose conversion to a string throws, on which it throws as
    well; every falsy value ([null], [undefined], [false], [0], [NaN], the
    empty string) is scored as the empty string: score 0 and no flags. *)
Theorem evaluateText_total_on_convertible `{StringPrototype} (v : value) :
  (v ≠ Object None → is_Some (evaluateText v))
  ∧ (ToBoolean v = false →
     evaluateText v = Some {| score := 0; flags := [] |})
  ∧ (v = Object None → evaluateText v = None).
Proof.
  split_and!.
  - intros Hv. unfold evaluateText, or.
    destruct v as [| |[]|[]|[]| |[]]; simpl; by eauto.
  - intros Hv. unfold evaluateText, or. rewrite Hv. simpl.
    by rewrite avalia_vazio.
  - by intros ->.
Qed.

Lemma evaluateText_total_on_convertible_witness :
  is_Some (evaluateText Undefined)
  ∧ evaluateText Null = Some {| score := 0; flags := [] |}.
Proof.
  split.
  - by apply (evaluateText_total_on_convertible Undefined).
  - by apply (evaluateText_total_on_convertible Null).
Defined.

(** C10, as stated, fails on an object that cannot be converted to a
    string: [String(text || "")] throws. *)
Lemma evaluateText_throws_on_unconvertible_object :
  ¬ (∀ v : value, is_Some (evaluateText v)).
Proof. intros Hv. by destruct (Hv (Object None)). Qed.

(** * Lemmas for the further properties *)

(** ** The scorer *)

Lemma test_inteiro_iff (s : jsstring) :
  test inteiro s = true ↔ ∃ i j, whole_number s i j.
Proof.
  unfold test. rewrite existsb_exists. split.
  - intros (i & _ & Hi).
    destruct (ends s inteiro i) as [|e l] eqn:He; [done|].
    assert (In e (ends s inteiro i)) as Hin by (rewrite He; by left).
    clear He Hi. unfold inteiro in Hin. cbn [ends] in Hin.
    apply in_flat_map in Hin as (i' & [-> Hb]%ends_WordB & Hin).
    apply in_flat_map in Hin as (k & Hk & [-> Hbe]%ends_WordB).
    apply in_flat_map in Hk as (j & [-> Hi]%ends_Digit & Hk).
    apply iter_Digit in Hk as [Hle Hd].
    exists i, k. split_and!; [lia | by apply digits_between_cons | done..].
  - intros (i & j & Hij & Hd & Hbi & Hbj).
    assert (digit_at s i = true) as Hi by (apply Hd; lia).
    assert (j ≤ length s)%nat as Hj.
    { destruct j as [|j]; [lia|].
      assert (digit_at s j = true) as Hdj by (apply Hd; lia).
      apply digit_at_lt in Hdj. lia. }
    exists i. split.
    + apply in_seq. apply digit_at_lt in Hi. lia.
    + assert (In j (ends s inteiro i)) as Hin;
        [|by destruct (ends s inteiro i)].
      unfold inteiro. cbn [ends].
      apply in_flat_map. exists i. split; [by apply ends_WordB|].
      apply in_flat_map. exists j. split; [|by apply ends_WordB].
      apply in_flat_map. exists (S i). split; [by apply ends_Digit|].
      apply iter_Digit_complete; [|lia..]. intros k Hk. apply Hd. lia.
Qed.

Lemma lower_latin1_idemp (c : N) :
  lower_latin1 (lower_latin1 c) = lower_latin1 c.
Proof.
  unfold lower_latin1 at 2 3.
  destruct (_ || _ || _) eqn:Hup; [|unfold lower_latin1; by rewrite Hup].
  unfold lower_latin1.
  destruct ((65 <=? c + 32) && _ || _ || _) eqn:Hup'; [|done].
  rewrite !orb_true_iff, !andb_true_iff, !N.leb_le in Hup, Hup'. lia.
Qed.

Lemma lower_latin1_latin1 (s : jsstring) :
  Forall latin1 s → Forall latin1 (List.map lower_latin1 s).
Proof.
  induction 1 as [|c s Hc _ IH]; [constructor|]. cbn [List.map].
  constructor; [|done]. unfold latin1, lower_latin1 in *.
  destruct (_ || _ || _) eqn:Hup; [|done].
  rewrite !orb_true_iff, !andb_true_iff, !N.leb_le in Hup. lia.
Qed.

Lemma matching_nil (t : jsstring) (l : list jsstring) :
  matching t l = [] ↔ ∀ w, w ∈ l → includes t w = false.
Proof.
  split.
  - intros Hnil w Hw. destruct (includes t w) eqn:Hin; [|done].
    assert (w ∈ matching t l) as Hm by by apply elem_of_matching.
    rewrite Hnil in Hm. by inversion Hm.
  - intros Hall. destruct (matching t l) as [|w m] eqn:Hm; [done|].
    assert (w ∈ matching t l) as [Hw Hin]%elem_of_matching
      by (rewrite Hm; by left).
    rewrite (Hall w Hw) in Hin. done.
Qed.

Lemma length_matching_le (t : jsstring) (l : list jsstring) :
  (length (matching t l) ≤ length l)%nat.
Proof. apply sublist_length, matching_sublist. Qed.

Lemma startsWith_join (sep p f : jsstring) (l : list jsstring) :
  startsWith f p = true → startsWith (join sep (f :: l)) p = true.
Proof.
  intros Hf. destruct l as [|g l]; [done|].
  cbn [join]. by apply startsWith_app_l.
Qed.

Section ScorerTiers.
Context `{StringPrototype}.

Lemma matching_not_nil (t : jsstring) (l : list jsstring) :
  matching t l ≠ [] ↔ ∃ w, w ∈ l ∧ includes t w = true.
Proof.
  split.
  - destruct (matching t l) as [|w m] eqn:Hm; [done|]. intros _.
    exists w. apply elem_of_matching. rewrite Hm. by left.
  - intros (w & Hw & Hin) Hnil.
    by rewrite (proj1 (matching_nil t l) Hnil w Hw) in Hin.
Qed.

(** The reason that goes with a verdict starts with the flag that decided
    it. *)
Lemma motivo_shape (s : jsstring) :
  match decisao (avalia s) with
  | REJEITAR =>
      startsWith (motivo_de REJEITAR (avalia s)) (lit "BANNED:") = true
  | AJUSTAR =>
      startsWith (motivo_de AJUSTAR (avalia s)) (lit "SENSITIVE:") = true
  | APROVAR => motivo_de APROVAR (avalia s) = lit "auto"
  end.
Proof.
  unfold decisao, motivo_de. rewrite avalia_spec. unfold evaluate_spec.
  cbn [score flags]. rewrite some_BANNED_flag.
  generalize (matching (toLowerCase s) BANNED)
    (matching (toLowerCase s) SENSITIVE)
    (currency (toLowerCase s)) (urgency (toLowerCase s)).
  intros lB lS c u. destruct lB as [|b lB].
  - destruct (40 <=? _)%Z eqn:Hle; [|done]. apply Z.leb_le in Hle.
    destruct lS as [|v lS].
    + destruct c, u; simpl in Hle; lia.
    + rewrite fmap_nil, app_nil_l, fmap_cons. apply startsWith_join.
      apply (startsWith_app (lit "SENSITIVE:") v).
  - rewrite fmap_cons. apply startsWith_join.
    apply (startsWith_app (lit "BANNED:") b).
Qed.
End ScorerTiers.

(** ** The worker and its retries *)

Section WorkerFrame.
Context `{StringPrototype}.

(** What a run of the worker can leave in the ledger, the queue and the
    counter. *)
Lemma worker_eventos job fs w :
  let x := worker job fs w in
  fila (mundo x) = fila w ∧ proximoId (mundo x) = proximoId w
  ∧ match resultado x with
    | inl _ => eventos (mundo x) = eventos w
    | inr _ =>
        (eventos (mundo x) = eventos w
         ∧ recompensas w !! job_recompensaId job = None)
        ∨ ∃ r s, recompensas w !! job_recompensaId job = Some r
                 ∧ fullText r = Some s
                 ∧ eventos (mundo x)
                   = eventos w
                     ++ [evento (job_recompensaId job) (decisao (avalia s))
                           (motivo_de (decisao (avalia s)) (avalia s))]
    end.
Proof.
  cbv zeta. rewrite worker_eq. unfold worker_tree.
  destruct (falha fs); [done|].
  destruct (recompensas w !! job_recompensaId job) as [r|] eqn:Hr;
    [|split_and!; try done; by left].
  destruct (fullText r) as [s|] eqn:Hs; [|done].
  cbv zeta. destruct (falha (tail fs)); [done|].
  destruct (decisao (avalia s)) eqn:Ha;
    [destruct (falha (tail (tail fs)))| |destruct (falha (tail (tail fs)))];
    cbn [resultado mundo fst snd fila proximoId eventos com_evento
         com_recompensas]; split_and!; try reflexivity;
    right; exists r, s; rewrite Ha; by split_and!.
Qed.

Lemma processar_S n job fs w :
  processar (S n) job fs w
  = match worker job fs w with
    | (inl _, w', fs') => processar n job fs' w'
    | (inr _, w', fs') => (inr true, w', fs')
    end.
Proof.
  cbn [processar]. cbv [catch mbind IO_bind mret IO_ret].
  by destruct (worker job fs w) as [[[e|[]] w'] fs'].
Qed.

End WorkerFrame.

(** ** The invariant of the pipeline *)

Section Pipeline.
Context `{StringPrototype} `{Servicos}.

(** The states in which a run of the worker can end. *)
Lemma worker_mundo job fs w :
  mundo (worker job fs w) = w
  ∨ ∃ r s, recompensas w !! job_recompensaId job = Some r
      ∧ fullText r = Some s
      ∧ let id := job_recompensaId job in
        let a := decisao (avalia s) in
        let w1 :=
          com_recompensas
            (insert id (veredito (novo_status a) (score (avalia s)) r)) w in
        let ev := evento id a (motivo_de a (avalia s)) in
        (a ≠ AJUSTAR ∧ mundo (worker job fs w) = w1)
        ∨ (a = AJUSTAR ∧ mundo (worker job fs w) = com_evento ev w)
        ∨ (a ≠ AJUSTAR ∧ mundo (worker job fs w) = com_evento ev w1).
Proof.
  rewrite worker_eq. unfold worker_tree.
  destruct (falha fs); [by left|].
  destruct (recompensas w !! job_recompensaId job) as [r|] eqn:Hr; [|by left].
  destruct (fullText r) as [s|] eqn:Hs; [|by left].
  cbv zeta. destruct (falha (tail fs)); [by left|].
  right. exists r, s. split_and!; [done..|].
  destruct (decisao (avalia s)) eqn:Ha;
    [destruct (falha (tail (tail fs)))| |destruct (falha (tail (tail fs)))];
    cbn [mundo fst snd]; auto.
Qed.

(** The states in which the route can leave the store. *)
Lemma post_mundo req fs w :
  mundo (post_recompensas req fs w) = w
  ∨ ∃ u cols,
      let w1 :=
        com_novo_id
          (com_recompensas (insert (proximoId w) (nova u cols)) w) in
      mundo (post_recompensas req fs w) = w1
      ∨ mundo (post_recompensas req fs w)
        = com_job {| job_recompensaId := proximoId w |} w1.
Proof.
  rewrite post_eq. unfold post_tree.
  destruct (requireAuth req) as [u|]; [|by left].
  destruct (body req) as [b|]; [|by left].
  destruct (prisma_validate u b) as [cols|]; [|by left].
  destruct (falha fs); [by left|].
  right. exists u, cols. cbv zeta. destruct (falha (tail fs)); auto.
Qed.

Lemma evento_fiel_insert_novo w e u cols :
  bem_formado w → evento_fiel w e →
  evento_fiel
    (com_novo_id (com_recompensas (insert (proximoId w) (nova u cols)) w)) e.
Proof.
  intros Hw (r & s & Hr & Hrest). exists r, s. split; [|done].
  cbn [recompensas com_novo_id com_recompensas].
  rewrite lookup_insert_ne; [done|]. destruct (Hw _ _ Hr). lia.
Qed.

Lemma pipeline_ok_vazio : pipeline_ok mundo_vazio.
Proof.
  split_and!; [apply bem_formado_vazio | | | constructor];
    intros x Hx; by inversion Hx.
Qed.

Lemma post_pipeline_ok req fs w :
  pipeline_ok w → pipeline_ok (mundo (post_recompensas req fs w)).
Proof.
  intros Hok. pose proof Hok as (Hw & Hev & Hfila & Hnd).
  pose proof (post_bem_formado req fs w Hw) as Hw'.
  destruct (post_mundo req fs w) as [Heq|(u & cols & Heq)];
    [by rewrite Heq|].
  cbv zeta in Heq. split; [done|]. clear Hw'.
  assert (∀ j, j ∈ fila w →
            is_Some (<[proximoId w := nova u cols]> (recompensas w)
                       !! job_recompensaId j)) as Hfila'.
  { intros j Hj. destruct (Hfila j Hj) as [r Hr].
    rewrite lookup_insert_ne; [by eexists|]. destruct (Hw _ _ Hr). lia. }
  destruct Heq as [->| ->];
    cbn [eventos fila recompensas com_job com_novo_id com_recompensas].
  - split_and!; [|done..]. intros e He.
    by apply evento_fiel_insert_novo, Hev.
  - split_and!.
    + intros e He.
      destruct (evento_fiel_insert_novo w e u cols Hw (Hev e He))
        as (r & s & Hr & Hrest).
      by exists r, s.
    + intros j [Hj| ->%list_elem_of_singleton]%elem_of_app; [by apply Hfila'|].
      cbn [job_recompensaId]. rewrite lookup_insert_eq. by eexists.
    + apply NoDup_app. split_and!; [done| |apply NoDup_singleton].
      intros j Hj ->%list_elem_of_singleton.
      destruct (Hfila _ Hj) as [r Hr]. cbn [job_recompensaId] in Hr.
      destruct (Hw _ _ Hr). lia.
Qed.

Lemma evento_fiel_veredito w e id r s :
  recompensas w !! id = Some r → fullText r = Some s →
  decisao (avalia s) ≠ AJUSTAR →
  evento_fiel w e →
  evento_fiel
    (com_recompensas
       (insert id (veredito (novo_status (decisao (avalia s)))
                     (score (avalia s)) r)) w) e.
Proof.
  intros Hr Hs Ha (r0 & s0 & Hr0 & Hs0 & He & Hst).
  destruct (decide (recompensaId e = id)) as [Hid|Hid].
  - subst id. assert (r0 = r) as -> by congruence.
    assert (s0 = s) as -> by congruence.
    exists (veredito (novo_status (decisao (avalia s))) (score (avalia s)) r), s.
    cbn [recompensas com_recompensas]. rewrite lookup_insert_eq.
    split_and!; [done..|].
    assert (acao e = decisao (avalia s)) as Hacao by by rewrite He.
    rewrite Hacao. clear He Hst Hacao.
    revert Ha. generalize (decisao (avalia s)) (score (avalia s)).
    intros a sc Ha. by destruct a.
  - exists r0, s0. cbn [recompensas com_recompensas].
    by rewrite lookup_insert_ne.
Qed.

Lemma evento_fiel_com_evento w e e' :
  evento_fiel w e → evento_fiel (com_evento e' w) e.
Proof. done. Qed.

Lemma worker_pipeline_ok job fs w :
  pipeline_ok w → pipeline_ok (mundo (worker job fs w)).
Proof.
  intros Hok. pose proof Hok as (Hw & Hev & Hfila & Hnd).
  pose proof (worker_bem_formado job fs w Hw) as Hw'.
  destruct (worker_mundo job fs w) as [Heq|(r & s & Hr & Hs & Hcases)];
    [by rewrite Heq|].
  cbv zeta in Hcases. split; [done|]. clear Hw'.
  set (id := job_recompensaId job) in *.
  set (v := veredito (novo_status (decisao (avalia s))) (score (avalia s)) r)
    in *.
  assert (∀ j, j ∈ fila w →
            is_Some (<[id := v]> (recompensas w) !! job_recompensaId j))
    as Hfila'.
  { intros j Hj. rewrite lookup_insert. case_decide; [by eexists|].
    by apply Hfila. }
  destruct Hcases as [[Ha ->]|[[Ha ->]|[Ha ->]]];
    cbn [eventos fila recompensas com_evento com_recompensas].
  - split_and!; [|done..]. intros e He.
    by apply (evento_fiel_veredito w e id r s), Hev.
  - split_and!; [|done..].
    intros e [He| ->%list_elem_of_singleton]%elem_of_app; [by apply Hev|].
    exists r, s. cbn [recompensaId acao evento]. rewrite Ha.
    destruct (ajustar_em_revisao w id r s Hw Hr Hs Ha). by split_and!.
  - split_and!; [|done..].
    intros e [He| ->%list_elem_of_singleton]%elem_of_app.
    + by apply evento_fiel_com_evento, (evento_fiel_veredito w e id r s), Hev.
    + exists v, s. cbn [recompensaId acao evento recompensas com_evento
                        com_recompensas].
      rewrite lookup_insert_eq. split_and!; [done..|].
      subst v. revert Ha. generalize (decisao (avalia s)) (score (avalia s)).
      intros a sc Ha. by destruct a.
Qed.

Lemma alcancavel_pipeline_ok w : alcancavel w → pipeline_ok w.
Proof.
  unfold alcancavel. generalize pipeline_ok_vazio.
  induction 2 as [|w0 w1 w2 Hstep _ IH]; [done|].
  apply IH. destruct Hstep as [req fs w|job fs w];
    [by apply post_pipeline_ok | by apply worker_pipeline_ok].
Qed.

(** One step keeps the ledger as a prefix and the listings' content. *)
Lemma transicao_historia w w' :
  bem_formado w → transicao w w' →
  eventos w `prefix_of` eventos w'
  ∧ ∀ id r, recompensas w !! id = Some r →
      ∃ r', recompensas w' !! id = Some r'
            ∧ dados r' = dados r ∧ criadorId r' = criadorId r.
Proof.
  intros Hw Hstep. destruct Hstep as [req fs w|job fs w].
  - destruct (post_mundo req fs w) as [Heq|(u & cols & Heq)];
      [rewrite Heq; by eauto|].
    cbv zeta in Heq.
    assert (∀ id r, recompensas w !! id = Some r →
              <[proximoId w := nova u cols]> (recompensas w) !! id = Some r)
      as Hkeep.
    { intros id r Hr. rewrite lookup_insert_ne; [done|].
      destruct (Hw _ _ Hr). lia. }
    destruct Heq as [->| ->];
      cbn [eventos recompensas com_job com_novo_id com_recompensas];
      (split; [done|]); intros id r Hr; exists r; by rewrite (Hkeep id r Hr).
  - split.
    + destruct (worker_eventos job fs w) as (_ & _ & Hev). cbv zeta in Hev.
      destruct (resultado (worker job fs w)); [by rewrite Hev|].
      destruct Hev as [[-> _]|(r & s & _ & _ & ->)];
        [done | by apply prefix_app_r].
    + intros id r Hr.
      destruct (worker_recompensas job fs w)
        as [Heq|(r0 & s & Hr0 & Hs & Ha & Heq)]; rewrite Heq; [by eauto|].
      rewrite lookup_insert. case_decide as Hid; [|by eauto]. subst id.
      assert (r0 = r) as -> by congruence. by eexists.
Qed.
End Pipeline.

Lemma replace_prefix (p t by_ : jsstring) :
  replace (p ++ t) p by_ = by_ ++ t.
Proof.
  destruct p as [|c p]; [by destruct t|].
  cbn [replace app]. change (c :: p ++ t) with ((c :: p) ++ t).
  by rewrite startsWith_app, drop_app_length.
Qed.

Lemma replace_absent (s p by_ : jsstring) :
  includes s p = false → replace s p by_ = s.
Proof.
  induction s as [|c s IH]; simpl.
  - rewrite orb_false_r. by intros ->.
  - intros [-> Hs]%orb_false_iff. by rewrite IH.
Qed.

Lemma mundo_exemplo_alcancavel : alcancavel mundo_exemplo.
Proof.
  eapply rtc_l; [apply servir|]. eapply rtc_l; [apply entregar|].
  apply rtc_refl.
Qed.

Section Stranded.
Context `{StringPrototype} `{Servicos}.

(** Once a request has used an id, no later request enqueues a job for
    it. *)
Lemma fila_sem_job id w w' :
  id < proximoId w → {| job_recompensaId := id |} ∉ fila w →
  rtc transicao w w' →
  id < proximoId w' ∧ {| job_recompensaId := id |} ∉ fila w'.
Proof.
  intros Hid Hj Hsteps. revert Hid Hj.
  induction Hsteps as [w|w0 w1 w2 Hstep _ IH]; [done|]. intros Hid Hj.
  apply IH; destruct Hstep as [req fs w|job fs w].
  - destruct (post_mundo req fs w) as [->|(u & cols & [->| ->])];
      [done|simpl; lia..].
  - by destruct (worker_eventos job fs w) as (_ & -> & _).
  - destruct (post_mundo req fs w) as [->|(u & cols & [->| ->])];
      [done..|]. simpl. rewrite elem_of_app, list_elem_of_singleton.
    intros [?|[= Heq]]; [done | lia].
  - by destruct (worker_eventos job fs w) as (-> & _ & _).
Qed.

End Stranded.

(** ** The feed *)

Lemma filter_sublist {A} (f : A → bool) (l : list A) :
  sublist (List.filter f l) l.
Proof.
  induction l as [|x l IH]; simpl; [constructor|].
  destruct (f x); by constructor.
Qed.

Lemma StronglySorted_sublist {A} (R : relation A) (l1 l2 : list A) :
  sublist l1 l2 → StronglySorted R l2 → StronglySorted R l1.
Proof.
  induction 1 as [|x l1 l2 Hsub IH|x l1 l2 Hsub IH];
    rewrite ?StronglySorted_cons; [done| |tauto].
  intros [Hx Hl2]. split; [|by apply IH].
  rewrite Forall_forall in Hx |- *. intros y Hy. apply Hx.
  by eapply elem_of_sublist.
Qed.

Section Feed.
Context `{Consulta}.

Lemma regiao_sublist q base : sublist (regiao q base) base.
Proof.
  unfold regiao. cbv zeta.
  repeat (destruct (_ && _)); repeat (etrans; [apply filter_sublist|]); done.
Qed.

(** The rows that the query of the feed selects. *)
Lemma recompensa_findMany_spec q fs w rows :
  resultado (recompensa_findMany q fs w) = inr rows →
  (length rows ≤ 200)%nat
  ∧ NoDup rows.*1
  ∧ (∀ ir, ir ∈ rows →
       recompensas w !! ir.1 = Some ir.2 ∧ status ir.2 = PUBLICADA)
  ∧ StronglySorted (λ a b, criadoEm b.1 ≤ criadoEm a.1) rows.
Proof.
  unfold recompensa_findMany. cbv zeta.
  destruct (if presente (q_scope q) then _ else _) as [por_scope|]; [|done].
  cbv [mbind IO_bind mret IO_ret gets]. rewrite chamada_eq.
  destruct (falha fs); [done|]. cbn [resultado fst].
  intros <-%(inj inr).
  match goal with
  | |- context [List.filter ?f ?l] => set (sel := List.filter f l)
  end.
  assert (sublist (take 200 (ordenar sel)) (ordenar sel)) as Htake
    by apply sublist_take.
  assert (sublist sel (map_to_list (recompensas w))) as Hsel
    by apply filter_sublist.
  split_and!.
  - rewrite length_take. lia.
  - eapply sublist_NoDup; [|apply fmap_sublist, Htake].
    rewrite (ordenar_perm sel).
    eapply sublist_NoDup; [|apply fmap_sublist, Hsel].
    apply NoDup_fst_map_to_list.
  - intros ir Hir.
    assert (ir ∈ sel) as Hin.
    { rewrite <- (ordenar_perm sel). by eapply elem_of_sublist. }
    apply list_elem_of_In, filter_In in Hin as [Hin Hf].
    apply list_elem_of_In in Hin. destruct ir as [i r].
    apply elem_of_map_to_list in Hin. split; [done|].
    apply andb_true_iff in Hf as [[Hp _]%andb_true_iff _].
    unfold publicada in Hp. cbn [snd] in *. by destruct (status r).
  - eapply StronglySorted_sublist; [exact Htake | apply ordenar_desc].
Qed.

Lemma get_recompensas_spec q fs w items :
  resultado (get_recompensas q fs w) = inr items →
  ∃ rows, resultado (recompensa_findMany q fs w) = inr rows
          ∧ items = item <$> regiao q rows.
Proof.
  unfold get_recompensas. cbv [mbind IO_bind mret IO_ret].
  destruct (recompensa_findMany q fs w) as [[[e|rows] w'] fs']; [done|].
  cbn [resultado fst]. intros <-%(inj inr). by exists rows.
Qed.

Lemma get_recompensas_mundo q fs w : mundo (get_recompensas q fs w) = w.
Proof.
  unfold get_recompensas, recompensa_findMany. cbv zeta.
  destruct (if presente (q_scope q) then _ else _) as [por_scope|]; [|done].
  cbv [mbind IO_bind mret IO_ret gets]. rewrite chamada_eq.
  by destruct (falha fs).
Qed.

Lemma elem_of_List_filter {A} (f : A → bool) (l : list A) (x : A) :
  x ∈ List.filter f l ↔ x ∈ l ∧ f x = true.
Proof. by rewrite !list_elem_of_In, filter_In. Qed.

(** A row that passes the filters of the handler passes each filter that
    applies. *)
Lemma regiao_elem q base ir :
  ir ∈ regiao q base →
  ir ∈ base
  ∧ (e_literal (q_scope q) (lit "UF") && presente (q_uf q) = true →
     por_uf q ir = true)
  ∧ (e_literal (q_scope q) (lit "MUNICIPIO") && presente (q_municipioIbge q)
     = true → por_municipio q ir = true)
  ∧ (e_literal (q_scope q) (lit "RAIO") && presente (q_lat q)
       && presente (q_lon q) && presente (q_raioKm q) = true →
     por_raio q ir = true).
Proof.
  unfold regiao. cbv zeta.
  destruct (e_literal (q_scope q) (lit "UF") && _);
    destruct (e_literal (q_scope q) (lit "MUNICIPIO") && _);
    destruct (e_literal (q_scope q) (lit "RAIO") && _ && _ && _);
    rewrite ?elem_of_List_filter; intuition done.
Qed.

End Feed.

(** ** Accounts *)

Lemma acesso_eq fs c :
  acesso fs c = (if falha fs then inl ForaDoAr else inr (), c, tail fs).
Proof. by destruct fs as [|[] fs]. Qed.

Lemma procura_Some col v c ir :
  procura col v c = Some ir → usuarios c !! ir.1 = Some ir.2 ∧ col ir.2 = v.
Proof.
  unfold procura. intros [Hin Hcol]%find_some.
  apply list_elem_of_In in Hin. destruct ir as [i u].
  apply elem_of_map_to_list in Hin.
  by apply bool_decide_eq_true in Hcol.
Qed.

Lemma procura_None col v c i u :
  procura col v c = None → usuarios c !! i = Some u → col u ≠ v.
Proof.
  unfold procura. intros Hnone Hu Hcol.
  assert (In (i, u) (map_to_list (usuarios c))) as Hin
    by by apply list_elem_of_In, elem_of_map_to_list.
  pose proof (find_none _ _ Hnone (i, u) Hin) as Hf. cbn [snd] in Hf.
  by rewrite bool_decide_eq_true_2 in Hf.
Qed.

Lemma procura_is_Some col v c i u :
  usuarios c !! i = Some u → col u = v → is_Some (procura col v c).
Proof.
  intros Hu Hcol. destruct (procura col v c) eqn:Hp; [by eexists|].
  by destruct (procura_None col v c i u Hp Hu).
Qed.

Section Accounts.
Context `{Autenticacao}.

Lemma signup_eq sal b fs c :
  signup sal (Some b) fs c = signup_tree sal b fs c.
Proof.
  unfold signup, signup_tree, usuario_findUnique, usuario_create.
  cbv [exige tenta mbind IOc_bind mret IOc_ret le grava lanca coluna].
  destruct (chave_valida Email (c_email b)); [|done]. cbn [negb].
  rewrite acesso_eq. destruct (falha fs); [done|].
  destruct (procura email (c_email b) c) as [ir|] eqn:He; [done|].
  destruct (chave_valida Cpf (c_cpf b)); [|done]. cbn [negb].
  rewrite acesso_eq. destruct (falha (tail fs)); [done|].
  destruct (procura cpf (c_cpf b) c) as [ir|] eqn:Hc; [done|].
  destruct (bcrypt_hash (c_senha b) sal) as [hash|]; [|done].
  fold (novo_usuario b hash).
  destruct (usuario_valido (novo_usuario b hash)); [|done]. cbn [negb].
  rewrite acesso_eq. destruct (falha (tail (tail fs))); [done|].
  unfold ocupado. cbn [email cpf novo_usuario]. by rewrite He, Hc.
Qed.

Lemma login_eq agora b fs c :
  login agora (Some b) fs c = login_tree agora b fs c.
Proof.
  unfold login, login_tree, usuario_findUnique.
  cbv [exige tenta mbind IOc_bind mret IOc_ret le lanca coluna].
  destruct (chave_valida Email (c_email b)); [|done]. cbn [negb].
  rewrite acesso_eq. destruct (falha fs); [done|].
  destruct (procura email (c_email b) c) as [ir|]; [|done].
  by destruct (bcrypt_compare (c_senha b) (senhaHash ir.2)) as [[]|].
Qed.

(** The states in which a sign-up leaves the accounts. *)
Lemma signup_estado sal req fs c :
  estado (signup sal req fs c) = c
  ∨ ∃ b hash, req = Some b
      ∧ procura email (c_email b) c = None
      ∧ procura cpf (c_cpf b) c = None
      ∧ bcrypt_hash (c_senha b) sal = Some hash
      ∧ signup sal req fs c
        = (inr (Cadastrado (proximoUsuario c) (c_email b) (c_nomeCompleto b)),
           com_usuario (novo_usuario b hash) c, tail (tail (tail fs))).
Proof.
  destruct req as [b|]; [|by left]. rewrite signup_eq. unfold signup_tree.
  destruct (negb (chave_valida Email (c_email b))); [by left|].
  destruct (falha fs); [by left|].
  destruct (procura email (c_email b) c) eqn:He; [by left|].
  destruct (negb (chave_valida Cpf (c_cpf b))); [by left|].
  destruct (falha (tail fs)); [by left|].
  destruct (procura cpf (c_cpf b) c) eqn:Hc; [by left|].
  destruct (bcrypt_hash (c_senha b) sal) as [hash|] eqn:Hh; [|by left].
  destruct (negb (usuario_valido (novo_usuario b hash))); [by left|].
  destruct (falha (tail (tail fs))); [by left|].
  right. by exists b, hash.
Qed.

Lemma login_estado agora req fs c : estado (login agora req fs c) = c.
Proof.
  destruct req as [b|]; [|done]. rewrite login_eq. unfold login_tree.
  repeat (case_match; try done).
Qed.

Lemma com_usuario_ok b hash c :
  contas_ok c →
  procura email (c_email b) c = None → procura cpf (c_cpf b) c = None →
  contas_ok (com_usuario (novo_usuario b hash) c).
Proof.
  intros [Huniq Hlt] He Hc. split.
  - intros i j u v. cbn [usuarios com_usuario]. rewrite !lookup_insert.
    repeat case_decide; subst; try done.
    + intros <-%(inj Some) Hv [Heq|Heq]; cbn [email cpf novo_usuario] in Heq.
      * by destruct (procura_None _ _ _ _ _ He Hv).
      * by destruct (procura_None _ _ _ _ _ Hc Hv).
    + intros Hu <-%(inj Some) [Heq|Heq]; cbn [email cpf novo_usuario] in Heq.
      * by destruct (procura_None _ _ _ _ _ He Hu).
      * by destruct (procura_None _ _ _ _ _ Hc Hu).
    + apply Huniq.
  - intros i u. cbn [usuarios proximoUsuario com_usuario].
    rewrite lookup_insert. case_decide; [lia|].
    intros Hu%Hlt. lia.
Qed.

Lemma contas_ok_vazias : contas_ok contas_vazias.
Proof. split; intros *; cbn; by rewrite lookup_empty. Qed.

Lemma pedido_conta_ok c c' : contas_ok c → pedido_conta c c' → contas_ok c'.
Proof.
  intros Hc Hstep. destruct Hstep as [sal req fs c|agora req fs c].
  - destruct (signup_estado sal req fs c)
      as [->|(b & hash & _ & He & Hcpf & _ & ->)]; [done|].
    by apply com_usuario_ok.
  - by rewrite login_estado.
Qed.

End Accounts.

Lemma mundo_feed_alcancavel : alcancavel mundo_feed.
Proof.
  eapply rtc_l; [apply servir|]. eapply rtc_l; [apply entregar|].
  apply rtc_refl.
Qed.

Section Approved.
Context `{StringPrototype}.

Lemma decisao_APROVAR (s : jsstring) :
  decisao (avalia s) = APROVAR →
  (∀ b, b ∈ BANNED → includes (toLowerCase s) b = false)
  ∧ (∀ b, b ∈ BANNED → includes s b = false)
  ∧ (score (avalia s) < 40)%Z.
Proof.
  intros Ha.
  assert (∀ b, b ∈ BANNED → includes (toLowerCase s) b = false) as Hlow.
  { intros b Hb. destruct (includes (toLowerCase s) b) eqn:Hin; [|done].
    by rewrite (decisao_REJEITAR s b Hb Hin) in Ha. }
  split_and!; [done | |].
  - intros b Hb. destruct (includes s b) eqn:Hin; [|done].
    by rewrite <- (Hlow b Hb), (banned_term_survives s b Hb Hin).
  - revert Ha. unfold decisao. generalize (avalia s). intros av.
    destruct (existsb _ _); [done|].
    destruct (40 <=? score av)%Z eqn:Hle; [done|]. intros _.
    by apply Z.leb_gt.
Qed.
End Approved.

Section RoundTrip.
Context `{Autenticacao} `{Servicos}.

Lemma procura_com_usuario b hash c :
  procura email (c_email b) c = None →
  procura email (c_email b) (com_usuario (novo_usuario b hash) c)
  = Some (proximoUsuario c, novo_usuario b hash).
Proof.
  intros Hnone.
  destruct (procura_is_Some email (c_email b)
              (com_usuario (novo_usuario b hash) c)
              (proximoUsuario c) (novo_usuario b hash))
    as [[i u] Hp]; [apply lookup_insert_eq | done |].
  rewrite Hp. pose proof (procura_Some _ _ _ _ Hp) as [Hu He].
  cbn [fst snd usuarios com_usuario] in Hu, He.
  rewrite lookup_insert in Hu. case_decide as Hi.
  - by apply (inj Some) in Hu as <-; subst i.
  - by destruct (procura_None _ _ _ _ _ Hnone Hu).
Qed.

End RoundTrip.

(** * Further properties of the code

    Properties of [server.js] beyond the moderation pipeline's
    specification: the shape of the scorer's verdicts, what the worker and
    the queue leave untouched, the invariants of the store, the handling of
    the bearer token, the feed and the two account routes.  Closed
    statements are evaluated with [latin1_strings], [servicos_exemplo],
    [consulta_exemplo] and [autenticacao_exemplo]. *)

(** X1. The currency pattern of [evaluateText] matches exactly the texts in
    which some run of digits stands as a word of its own; the grouping by
    thousands and the decimal part of the pattern add nothing: it accepts
    the same texts as [/\b\d+\b/]. *)
Theorem valores_matches_whole_numbers (s : jsstring) :
  (test valores s = true ↔ ∃ i j, whole_number s i j)
  ∧ test valores s = test inteiro s.
Proof.
  split; [apply test_valores_iff|].
  apply eq_true_iff_eq. by rewrite test_valores_iff, test_inteiro_iff.
Qed.

(** X2. On Latin-1 text the verdict does not depend on the case of the
    letters: two texts with the same lower-case form get the same score and
    flags, and lower-casing a text beforehand changes nothing. *)
Theorem evaluateText_ignores_case `{StringPrototype} (s1 s2 : jsstring) :
  Forall latin1 s1 → Forall latin1 s2 →
  List.map lower_latin1 s1 = List.map lower_latin1 s2 →
  evaluateText (Str s1) = evaluateText (Str s2)
  ∧ evaluateText (Str (List.map lower_latin1 s1)) = evaluateText (Str s1).
Proof.
  intros H1 H2 Heq. rewrite !evaluateText_Str. unfold avalia.
  rewrite (toLowerCase_latin1 s1 H1), (toLowerCase_latin1 s2 H2).
  rewrite (toLowerCase_latin1 _ (lower_latin1_latin1 s1 H1)).
  rewrite List.map_map, (List.map_ext _ _ lower_latin1_idemp), <- Heq. done.
Qed.

Lemma evaluateText_ignores_case_witness :
  evaluateText (Str (lit "MATAR")) = evaluateText (Str (lit "matar")).
Proof.
  apply (proj1 (evaluateText_ignores_case (lit "MATAR") (lit "matar")
                  (latin1_check (lit "MATAR") eq_refl)
                  (latin1_check (lit "matar") eq_refl) eq_refl)).
Defined.

(** X3. Whatever the text, the score is a multiple of 5 between 0 and 1750
    and there are at most 23 flags; a text without flags scores at most 10,
    a text with a flag at least 30; so a verdict other than approval always
    comes with a flag to report. *)
Theorem score_and_flags_bounds `{StringPrototype} (s : jsstring) :
  let av := avalia s in
  (0 ≤ score av ≤ 1750)%Z ∧ (score av mod 5 = 0)%Z
  ∧ (length (flags av) ≤ 23)%nat
  ∧ (flags av = [] ↔ (score av ≤ 10)%Z)
  ∧ (flags av ≠ [] → (30 ≤ score av)%Z)
  ∧ (decisao av ≠ APROVAR → flags av ≠ []).
Proof.
  cbv zeta. unfold decisao. rewrite avalia_spec. unfold evaluate_spec.
  cbn [score flags]. rewrite some_BANNED_flag.
  pose proof (length_matching_le (toLowerCase s) BANNED) as HB.
  pose proof (length_matching_le (toLowerCase s) SENSITIVE) as HS.
  change (length BANNED) with 15%nat in HB.
  change (length SENSITIVE) with 8%nat in HS.
  generalize dependent (matching (toLowerCase s) BANNED).
  generalize dependent (matching (toLowerCase s) SENSITIVE).
  generalize (currency (toLowerCase s)) (urgency (toLowerCase s)).
  intros c u lS HS lB HB.
  assert (0 ≤ points c ≤ 5 ∧ points c mod 5 = 0)%Z as Hc by by destruct c.
  assert (0 ≤ points u ≤ 5 ∧ points u mod 5 = 0)%Z as Hu by by destruct u.
  split_and!.
  - lia.
  - lia.
  - apply Z.mod_divide; [done|]. 
    destruct Hc as [_ Hc], Hu as [_ Hu].
    apply Z.mod_divide in Hc, Hu; [|done..].
    repeat apply Z.divide_add_r; try done.
    + exists (20 * Z.of_nat (length lB))%Z. lia.
    + exists (6 * Z.of_nat (length lS))%Z. lia.
  - rewrite length_app, !length_fmap. lia.
  - split.
    + intros [HlB HlS]%app_eq_nil.
      apply fmap_nil_inv in HlB, HlS. subst. simpl. lia.
    + intros Hsc. destruct lB, lS; simpl in *; try done; lia.
  - intros Hne. destruct lB, lS; simpl in *; try done; lia.
  - destruct lB as [|b lB]; [|done].
    destruct lS as [|v lS]; [|done]. simpl.
    destruct (40 <=? _)%Z eqn:Hle; [|done].
    apply Z.leb_le in Hle. lia.
Qed.

(** X4. The tier that the worker takes, read off the text: rejection exactly
    when some banned term occurs in the lower-cased text; otherwise
    adjustment exactly when at least two sensitive terms occur, or one
    together with both a number and an urgency marker; otherwise
    approval. *)
Theorem tier_of_a_text `{StringPrototype} (s : jsstring) :
  let t := toLowerCase s in
  let n := length (matching t SENSITIVE) in
  (decisao (avalia s) = REJEITAR ↔ ∃ w, w ∈ BANNED ∧ includes t w = true)
  ∧ (decisao (avalia s) = AJUSTAR ↔
       (∀ w, w ∈ BANNED → includes t w = false)
       ∧ (2 ≤ n ∨ n = 1 ∧ currency t = true ∧ urgency t = true)%nat)
  ∧ (decisao (avalia s) = APROVAR ↔
       (∀ w, w ∈ BANNED → includes t w = false)
       ∧ (n = 0 ∨ n = 1 ∧ (currency t = false ∨ urgency t = false))%nat).
Proof.
  cbv zeta. unfold decisao. rewrite avalia_spec. unfold evaluate_spec.
  cbn [score flags]. rewrite some_BANNED_flag.
  rewrite <- matching_not_nil, <- matching_nil.
  generalize (matching (toLowerCase s) BANNED)
    (matching (toLowerCase s) SENSITIVE)
    (currency (toLowerCase s)) (urgency (toLowerCase s)).
  intros lB lS c u. destruct lB as [|b lB].
  - cbn [length]. destruct (40 <=? _)%Z eqn:Hle;
      [apply Z.leb_le in Hle | apply Z.leb_gt in Hle];
      destruct c, u; cbn [points] in Hle;
      (split_and!; split; try done; try tauto; try (intros [_ ?]); try split;
       try done; try lia).
    all: destruct lS as [|? [|? ?]]; cbn [length] in *; try lia.
    all: intuition (try lia; try done).
  - split_and!; split; try done; try (by intros [? _]).
Qed.

(** X5. A run of the worker, whatever calls fail, leaves the queue and the
    key counter alone, adds and removes no listing, changes neither the
    data nor the creator of any listing, changes no listing other than the
    one of its job, and appends at most one event, about that listing. *)
Theorem worker_touches_only_its_listing `{StringPrototype} job fs w :
  let id := job_recompensaId job in
  let w' := mundo (worker job fs w) in
  fila w' = fila w ∧ proximoId w' = proximoId w
  ∧ (∀ i, is_Some (recompensas w' !! i) ↔ is_Some (recompensas w !! i))
  ∧ (∀ i r', recompensas w' !! i = Some r' →
       ∃ r, recompensas w !! i = Some r
            ∧ dados r' = dados r ∧ criadorId r' = criadorId r
            ∧ (i ≠ id → r' = r))
  ∧ (eventos w' = eventos w
     ∨ ∃ e, eventos w' = eventos w ++ [e] ∧ recompensaId e = id).
Proof.
  cbv zeta.
  destruct (worker_eventos job fs w) as (Hf & Hp & He). cbv zeta in He.
  split_and!; [done..| | |].
  - intros i.
    destruct (worker_recompensas job fs w)
      as [Heq|(r & s & Hr & Hs & Ha & Heq)]; rewrite Heq; [done|].
    rewrite lookup_insert. case_decide as Hi; [|done]. subst i.
    rewrite Hr. split; by eauto.
  - intros i r'.
    destruct (worker_recompensas job fs w)
      as [Heq|(r & s & Hr & Hs & Ha & Heq)]; rewrite Heq; [by eauto|].
    rewrite lookup_insert. case_decide as Hi; [|by eauto]. subst i.
    intros <-%(inj Some). exists r. by split_and!.
  - destruct (resultado (worker job fs w)); [by left|].
    destruct He as [[He _]|(r & s & _ & _ & He)]; [by left|].
    right. by eexists.
Qed.

(** X6. The event that a run of the worker appends is about the listing of
    the job, and its reason names what decided: it starts with a [BANNED:]
    flag for a rejection, with a [SENSITIVE:] flag for an adjustment, and
    is [auto] for an approval. *)
Theorem worker_event_names_its_cause `{StringPrototype} job fs w e :
  eventos (mundo (worker job fs w)) = eventos w ++ [e] →
  recompensaId e = job_recompensaId job
  ∧ recursoId e = job_recompensaId job
  ∧ recursoTipo e = lit "Recompensa"
  ∧ match acao e with
    | REJEITAR => startsWith (motivo e) (lit "BANNED:") = true
    | AJUSTAR => startsWith (motivo e) (lit "SENSITIVE:") = true
    | APROVAR => motivo e = lit "auto"
    end.
Proof.
  intros He.
  assert (∀ l : list ModeracaoEvento, l ≠ l ++ [e]) as Hne.
  { intros l Hl. apply (f_equal length) in Hl.
    rewrite length_app in Hl. simpl in Hl. lia. }
  destruct (worker_eventos job fs w) as (_ & _ & Hev). cbv zeta in Hev.
  destruct (resultado (worker job fs w));
    [rewrite He in Hev; by apply eq_sym, Hne in Hev|].
  destruct Hev as [[Hev _]|(r & s & _ & _ & Hev)];
    [rewrite He in Hev; by apply eq_sym, Hne in Hev|].
  rewrite He in Hev. apply app_inj_tail in Hev as [_ ->].
  split_and!; [done..|]. cbn [acao motivo evento].
  pose proof (motivo_shape s) as Hm. by destruct (decisao (avalia s)).
Qed.

Lemma worker_event_names_its_cause_witness :
  startsWith (lit "BANNED:arma, SENSITIVE:senha") (lit "BANNED:") = true.
Proof.
  apply (worker_event_names_its_cause {| job_recompensaId := 5 |} []
           (com_linha 5 (linha (lit "vendo arma") (lit "senha 10")
                           EM_REVISAO None))
           (evento 5 REJEITAR (lit "BANNED:arma, SENSITIVE:senha"))).
  by vm_compute.
Defined.

(** X7. However many attempts the queue makes on a job and whichever calls
    fail, the attempts end with the job resolved or given up, append at
    most one event in all, append none when every attempt failed, and
    enqueue nothing. *)
Theorem retries_never_duplicate_events `{StringPrototype} n job fs w :
  let x := processar n job fs w in
  (resultado x = inr true ∨ resultado x = inr false)
  ∧ (resultado x = inr false → eventos (mundo x) = eventos w)
  ∧ (eventos (mundo x) = eventos w
     ∨ ∃ e, eventos (mundo x) = eventos w ++ [e]
            ∧ recompensaId e = job_recompensaId job)
  ∧ fila (mundo x) = fila w.
Proof.
  cbv zeta. revert fs w. induction n as [|n IH]; intros fs w.
  - cbn [processar]. split_and!; [by right | done | by left | done].
  - rewrite processar_S.
    destruct (worker_eventos job fs w) as (Hf & _ & Hev). cbv zeta in Hev.
    destruct (worker job fs w) as [[[e|[]] w'] fs'];
      cbn [resultado mundo fst snd] in *.
    + destruct (IH fs' w') as (Hres & Hfalse & Hone & Hfila).
      rewrite Hev in Hfalse, Hone. rewrite Hf in Hfila. done.
    + split_and!; [by left | done | | done].
      destruct Hev as [[Hev _]|(r & s & _ & _ & Hev)]; [by left|].
      right. by eexists.
Qed.

(** X8. When the append to the ledger is rejected on each attempt, a job
    for a listing on the rejecting or the approving tier is given up (with
    [attempts: 3], after three runs) with the verdict written to the
    listing and no event in the ledger. *)
Theorem rejected_appends_exhaust_the_attempts `{StringPrototype} n job w r s :
  let id := job_recompensaId job in
  let av := avalia s in
  recompensas w !! id = Some r → fullText r = Some s →
  decisao av ≠ AJUSTAR →
  processar (S n) job (recusa_eventos (S n)) w
  = (inr false,
     com_recompensas
       (insert id (veredito (novo_status (decisao av)) (score av) r)) w,
     []).
Proof.
  cbv zeta. intros Hr Hs Ha.
  assert (∀ w0 m, recompensas w0 !! job_recompensaId job = Some r →
            worker job (recusa_eventos (S m)) w0
            = (inl Indisponivel,
               com_recompensas
                 (insert (job_recompensaId job)
                    (veredito (novo_status (decisao (avalia s)))
                       (score (avalia s)) r)) w0,
               recusa_eventos m)) as Hrun.
  { intros w0 m Hr0. rewrite worker_eq. unfold worker_tree.
    rewrite Hr0, Hs. cbv zeta. cbn [recusa_eventos app falha tail].
    revert Ha. generalize (avalia s). intros av Ha.
    by destruct (decisao av). }
  set (v := veredito (novo_status (decisao (avalia s))) (score (avalia s)) r).
  fold v in Hrun.
  assert (veredito (novo_status (decisao (avalia s))) (score (avalia s)) v = v)
    as Hv by done.
  rewrite processar_S, (Hrun w n Hr).
  assert (∀ m, processar m job (recusa_eventos m)
                 (com_recompensas (insert (job_recompensaId job) v) w)
               = (inr false,
                  com_recompensas (insert (job_recompensaId job) v) w, []))
    as Hrest; [|apply Hrest].
  induction m as [|m IH]; [done|].
  rewrite processar_S.
  assert (fullText v = Some s) as Hsv by done.
  assert (worker job (recusa_eventos (S m))
            (com_recompensas (insert (job_recompensaId job) v) w)
          = (inl Indisponivel,
             com_recompensas (insert (job_recompensaId job) v) w,
             recusa_eventos m)) as ->; [|done].
  rewrite worker_eq. unfold worker_tree.
  cbn [recompensas com_recompensas]. rewrite lookup_insert_eq, Hsv.
  cbv zeta. cbn [recusa_eventos app falha tail]. rewrite Hv.
  rewrite com_recompensas_insert_insert.
  revert Ha. generalize (avalia s). intros av Ha.
  by destruct (decisao av).
Qed.

Lemma rejected_appends_exhaust_the_attempts_witness :
  resultado (processar attempts {| job_recompensaId := 5 |}
               (recusa_eventos attempts)
               (com_linha 5 (linha dog_title dog_description EM_REVISAO None)))
  = inr false.
Proof.
  unfold attempts.
  rewrite (rejected_appends_exhaust_the_attempts 2 {| job_recompensaId := 5 |}
             (com_linha 5 (linha dog_title dog_description EM_REVISAO None))
             (linha dog_title dog_description EM_REVISAO None) dog_text
             eq_refl eq_refl); [done|].
  by rewrite dog_avalia.
Defined.

(** X9. In every state reached from the empty store, each event of the
    ledger refers to a listing that exists, carries the decision and the
    reason that the scorer gives for the text of that listing, and the
    listing is in the state that goes with it: BANIDA after REJEITAR,
    PUBLICADA after APROVAR, both with the score as riskScore, and still
    EM_REVISAO without riskScore after AJUSTAR. *)
Theorem ledger_agrees_with_listings `{StringPrototype} `{Servicos} w e :
  alcancavel w → e ∈ eventos w →
  ∃ r s, recompensas w !! recompensaId e = Some r
    ∧ recursoId e = recompensaId e ∧ recursoTipo e = lit "Recompensa"
    ∧ fullText r = Some s
    ∧ acao e = decisao (avalia s)
    ∧ motivo e = motivo_de (acao e) (avalia s)
    ∧ match acao e with
      | AJUSTAR => status r = EM_REVISAO ∧ riskScore r = None
      | a => status r = novo_status a ∧ riskScore r = Some (score (avalia s))
      end.
Proof.
  intros (_ & Hev & _)%alcancavel_pipeline_ok He.
  destruct (Hev e He) as (r & s & Hr & Hs & Heq & Hst).
  exists r, s. split_and!; [done| | |done| | |done]; by rewrite Heq.
Qed.

Lemma ledger_agrees_with_listings_witness :
  ∃ r, recompensas mundo_exemplo !! 1 = Some r ∧ status r = BANIDA.
Proof.
  assert (evento 1 REJEITAR (lit "BANNED:matar") ∈ eventos mundo_exemplo)
    as Hin by (apply list_elem_of_In; vm_compute; by left).
  destruct (ledger_agrees_with_listings mundo_exemplo _
              mundo_exemplo_alcancavel Hin)
    as (r & s & Hr & _ & _ & _ & _ & _ & Hst & _).
  by exists r.
Defined.

(** X10. From a reachable state on, whatever requests are served and jobs
    delivered, the ledger only grows at its end, and every listing stays in
    the table with the data and the creator it has. *)
Theorem history_is_never_rewritten `{StringPrototype} `{Servicos} w w' :
  alcancavel w → rtc transicao w w' →
  eventos w `prefix_of` eventos w'
  ∧ ∀ id r, recompensas w !! id = Some r →
      ∃ r', recompensas w' !! id = Some r'
            ∧ dados r' = dados r ∧ criadorId r' = criadorId r.
Proof.
  intros Hw%alcancavel_bem_formado Hsteps.
  induction Hsteps as [w|w0 w1 w2 Hstep _ IH]; [by eauto|].
  destruct (transicao_historia w0 w1 Hw Hstep) as [Hpre Hrows].
  destruct (IH (transicao_bem_formado _ _ Hw Hstep)) as [Hpre' Hrows'].
  split; [by etrans|]. intros id r Hr.
  destruct (Hrows id r Hr) as (r1 & Hr1 & Hd1 & Hc1).
  destruct (Hrows' id r1 Hr1) as (r2 & Hr2 & Hd2 & Hc2).
  exists r2. split_and!; [done | congruence..].
Qed.

Lemma history_is_never_rewritten_witness :
  eventos mundo_exemplo
  `prefix_of` eventos (mundo (worker {| job_recompensaId := 1 |} []
                                mundo_exemplo)).
Proof.
  apply (history_is_never_rewritten mundo_exemplo _ mundo_exemplo_alcancavel).
  apply rtc_once, entregar.
Defined.

(** X11. In every state reached from the empty store, each job that was
    enqueued names a listing of the table, and no listing was enqueued
    twice. *)
Theorem queued_jobs_name_listings `{StringPrototype} `{Servicos} w :
  alcancavel w →
  (∀ j, j ∈ fila w → ∃ r, recompensas w !! job_recompensaId j = Some r)
  ∧ NoDup (fila w).
Proof. by intros (_ & _ & Hfila & Hnd)%alcancavel_pipeline_ok. Qed.

Lemma queued_jobs_name_listings_witness : NoDup (fila mundo_exemplo).
Proof. apply (queued_jobs_name_listings _ mundo_exemplo_alcancavel). Defined.

(** X12. When the route answers with an id, in a reachable state, that id
    was not in use; the new listing belongs to the user of the token, is
    EM_REVISAO and has no riskScore; every other listing is as before;
    exactly one job, for the new id, was added to the queue; and the ledger
    is untouched. *)
Theorem created_listing_is_new `{StringPrototype} `{Servicos} req fs w id st :
  alcancavel w →
  resultado (post_recompensas req fs w) = inr (Json id st) →
  let w' := mundo (post_recompensas req fs w) in
  recompensas w !! id = None
  ∧ (∃ u r, requireAuth req = Some u ∧ recompensas w' !! id = Some r
            ∧ criadorId r = u ∧ status r = EM_REVISAO ∧ riskScore r = None)
  ∧ (∀ i r, recompensas w !! i = Some r → recompensas w' !! i = Some r)
  ∧ fila w' = fila w ++ [{| job_recompensaId := id |}]
  ∧ eventos w' = eventos w.
Proof.
  intros Hw%alcancavel_bem_formado. cbv zeta. rewrite post_eq.
  unfold post_tree.
  destruct (requireAuth req) as [u|]; [|done].
  destruct (body req) as [b|]; [|done].
  destruct (prisma_validate u b) as [cols|]; [|done].
  destruct (falha fs); [done|]. destruct (falha (tail fs)); [done|].
  cbn [resultado mundo fst snd]. intros [= <- <-].
  assert (recompensas w !! proximoId w = None) as Hnew.
  { destruct (recompensas w !! proximoId w) as [r|] eqn:Hr; [|done].
    destruct (Hw _ _ Hr). lia. }
  cbn [recompensas fila eventos com_job com_novo_id com_recompensas].
  split_and!; [done | | |done..].
  - exists u, (nova u cols). by rewrite lookup_insert_eq.
  - intros i r Hr. rewrite lookup_insert_ne; [done|]. congruence.
Qed.

Lemma created_listing_is_new_witness :
  recompensas mundo_exemplo !! 2 = None.
Proof.
  apply (created_listing_is_new
           (pedido (Some (corpo dog_title dog_description))) []
           mundo_exemplo 2 EM_REVISAO mundo_exemplo_alcancavel).
  by vm_compute.
Defined.

(** X13. When the insertion goes through and the enqueueing is rejected,
    the route answers 400 although the listing has been inserted, the queue
    is as before, and no request served later ever enqueues a job for that
    listing. *)
Theorem rejected_enqueue_strands_the_listing `{StringPrototype} `{Servicos}
    req u b cols fs w :
  alcancavel w →
  requireAuth req = Some u → body req = Some b →
  prisma_validate u b = Some cols →
  falha fs = false → falha (tail fs) = true →
  let id := proximoId w in
  let x := post_recompensas req fs w in
  resultado x = inr (Status400 Indisponivel)
  ∧ recompensas w !! id = None
  ∧ recompensas (mundo x) !! id = Some (nova u cols)
  ∧ fila (mundo x) = fila w
  ∧ ∀ w', rtc transicao (mundo x) w' →
          {| job_recompensaId := id |} ∉ fila w'.
Proof.
  intros Hreach Hu Hb Hcols Hf1 Hf2. cbv zeta.
  pose proof (alcancavel_pipeline_ok w Hreach) as (Hw & _ & Hfila & _).
  assert (recompensas w !! proximoId w = None) as Hnew.
  { destruct (recompensas w !! proximoId w) as [r|] eqn:Hr; [|done].
    destruct (Hw _ _ Hr). lia. }
  rewrite post_eq. unfold post_tree. rewrite Hu, Hb, Hcols, Hf1, Hf2.
  cbn [resultado mundo fst snd recompensas fila com_novo_id com_recompensas].
  split_and!; [done.. | by rewrite lookup_insert_eq | done |].
  intros w' Hsteps.
  eapply (fila_sem_job (proximoId w)); [| |exact Hsteps]; simpl; [lia|].
  intros [r Hr]%Hfila. cbn [job_recompensaId] in Hr. congruence.
Qed.

Lemma rejected_enqueue_strands_the_listing_witness :
  resultado (post_recompensas (pedido (Some (corpo dog_title dog_description)))
               [false; true] mundo_exemplo)
  = inr (Status400 Indisponivel).
Proof.
  apply (rejected_enqueue_strands_the_listing
           (pedido (Some (corpo dog_title dog_description))) 7
           (corpo dog_title dog_description) (corpo dog_title dog_description)
           [false; true] mundo_exemplo mundo_exemplo_alcancavel);
    reflexivity.
Defined.

(** X14. [requireAuth] verifies what follows the prefix [Bearer ]; a header
    that does not contain the prefix is verified as it is, and a missing
    header as the empty token; when the token is refused the route answers
    401 without touching the store or making a call. *)
Theorem requireAuth_reads_the_bearer_token `{Servicos}
    (t : jsstring) (b : option Body) :
  requireAuth {| authorization := Some (lit "Bearer " ++ t); body := b |}
  = jwt_verify t
  ∧ (includes t (lit "Bearer ") = false →
     requireAuth {| authorization := Some t; body := b |} = jwt_verify t)
  ∧ requireAuth {| authorization := None; body := b |} = jwt_verify []
  ∧ (∀ req fs w, requireAuth req = None →
       post_recompensas req fs w = (inr Status401, w, fs)).
Proof.
  unfold requireAuth. cbn [authorization default from_option id]. split_and!.
  - by rewrite replace_prefix.
  - intros Ht. by rewrite replace_absent.
  - done.
  - intros req fs w Hreq. rewrite post_eq. unfold post_tree, requireAuth.
    by rewrite Hreq.
Qed.

Lemma requireAuth_reads_the_bearer_token_witness :
  requireAuth {| authorization := Some (lit "tok"); body := None |} = Some 7.
Proof.
  rewrite (proj1 (proj2 (requireAuth_reads_the_bearer_token (lit "tok") None)));
    reflexivity.
Defined.

(** X15. When the feed answers, it lists at most 200 elements, no listing
    twice, each the projection of a listing of the table whose status is
    PUBLICADA, the newest first; and serving the feed changes nothing. *)
Theorem feed_lists_published_listings `{Consulta} q fs w items :
  resultado (get_recompensas q fs w) = inr items →
  (length items ≤ 200)%nat
  ∧ NoDup (item_id <$> items)
  ∧ (∀ it, it ∈ items →
       ∃ r, recompensas w !! item_id it = Some r
            ∧ status r = PUBLICADA ∧ it = item (item_id it, r))
  ∧ StronglySorted (λ a b, item_criadoEm b ≤ item_criadoEm a) items
  ∧ mundo (get_recompensas q fs w) = w.
Proof.
  intros (rows & Hrows & ->)%get_recompensas_spec.
  destruct (recompensa_findMany_spec q fs w rows Hrows)
    as (Hlen & Hnd & Hin & Hsort).
  pose proof (regiao_sublist q rows) as Hsub.
  split_and!.
  - rewrite length_fmap. apply sublist_length in Hsub. lia.
  - rewrite <- list_fmap_compose.
    eapply sublist_NoDup; [exact Hnd | by apply fmap_sublist].
  - intros it (ir & -> & Hir)%list_elem_of_fmap.
    destruct (Hin ir) as [Hr Hst]; [by eapply elem_of_sublist|].
    exists ir.2. by destruct ir.
  - eapply StronglySorted_fmap; [|by eapply StronglySorted_sublist].
    intros a b Hab. exact Hab.
  - apply get_recompensas_mundo.
Qed.

Lemma feed_lists_published_listings_witness :
  (length [item_sp] ≤ 200)%nat.
Proof.
  apply (feed_lists_published_listings consulta_sp [] mundo_feed).
  by vm_compute.
Defined.

(** X16. The filters of the feed: with scope UF and a state given every
    element is of that state, with scope MUNICIPIO and a municipality given
    every element is of that municipality; a state given as a nested value
    empties the feed; with scope RAIO and the three parameters given no
    element lacks a coordinate; and when no filter applies the feed is what
    the query selected. *)
Theorem feed_filters_by_region `{Consulta} q fs w items :
  resultado (get_recompensas q fs w) = inr items →
  (∀ s, q_scope q = Texto (lit "UF") → q_uf q = Texto s → s ≠ [] →
     ∀ it, it ∈ items → item_uf it = Str s)
  ∧ (∀ s, q_scope q = Texto (lit "MUNICIPIO") →
       q_municipioIbge q = Texto s → s ≠ [] →
       ∀ it, it ∈ items → item_municipioIbge it = Str s)
  ∧ (q_scope q = Texto (lit "UF") → (∃ c, q_uf q = Composto c) →
     items = [])
  ∧ (q_scope q = Texto (lit "RAIO") → presente (q_lat q) = true →
     presente (q_lon q) = true → presente (q_raioKm q) = true →
     ∀ it, it ∈ items →
       nulo (item_latitude it) = false ∧ nulo (item_longitude it) = false)
  ∧ (e_literal (q_scope q) (lit "UF") && presente (q_uf q) = false →
     e_literal (q_scope q) (lit "MUNICIPIO") && presente (q_municipioIbge q)
     = false →
     e_literal (q_scope q) (lit "RAIO") && presente (q_lat q)
       && presente (q_lon q) && presente (q_raioKm q) = false →
     ∃ rows, resultado (recompensa_findMany q fs w) = inr rows
             ∧ items = item <$> rows).
Proof.
  intros (rows & Hrows & ->)%get_recompensas_spec. split_and!.
  - intros s Hscope Huf Hs it (ir & -> & Hir)%list_elem_of_fmap.
    apply regiao_elem in Hir as (_ & Hcol & _).
    rewrite Hscope, Huf in Hcol. unfold por_uf in Hcol. rewrite Huf in Hcol.
    destruct s as [|c s]; [done|]. specialize (Hcol eq_refl).
    cbn [item item_uf]. destruct (uf (dados ir.2)); try done.
    cbn [coluna_igual] in Hcol. by apply bool_decide_eq_true in Hcol as ->.
  - intros s Hscope Hm Hs it (ir & -> & Hir)%list_elem_of_fmap.
    apply regiao_elem in Hir as (_ & _ & Hcol & _).
    rewrite Hscope, Hm in Hcol. unfold por_municipio in Hcol.
    rewrite Hm in Hcol.
    destruct s as [|c s]; [done|]. specialize (Hcol eq_refl).
    cbn [item item_municipioIbge].
    destruct (municipioIbge (dados ir.2)); try done.
    cbn [coluna_igual] in Hcol. by apply bool_decide_eq_true in Hcol as ->.
  - intros Hscope [c Huf].
    destruct (regiao q rows) as [|ir l] eqn:Hreg; [done|].
    assert (ir ∈ regiao q rows) as Hir by (rewrite Hreg; by left).
    apply regiao_elem in Hir as (_ & Hcol & _).
    rewrite Hscope, Huf in Hcol. unfold por_uf in Hcol. rewrite Huf in Hcol.
    specialize (Hcol eq_refl). by destruct (uf (dados ir.2)).
  - intros Hscope Hlat Hlon Hraio it (ir & -> & Hir)%list_elem_of_fmap.
    apply regiao_elem in Hir as (_ & _ & _ & Hr).
    rewrite Hscope, Hlat, Hlon, Hraio in Hr. specialize (Hr eq_refl).
    unfold por_raio in Hr. cbn [item item_latitude item_longitude].
    destruct (nulo (latitude (dados ir.2))), (nulo (longitude (dados ir.2)));
      done.
  - intros H1 H2 H3. exists rows. split; [done|]. unfold regiao.
    by rewrite H1, H2, H3.
Qed.

Lemma feed_filters_by_region_witness : item_uf item_sp = Str (lit "SP").
Proof.
  assert (resultado (get_recompensas consulta_sp [] mundo_feed)
          = inr [item_sp]) as Hfeed by by vm_compute.
  apply (proj1 (feed_filters_by_region consulta_sp [] mundo_feed [item_sp]
                  Hfeed) (lit "SP")); [done..|by left].
Defined.

(** X17. In every state reached from the empty store, each element of the
    feed is a listing whose text the scorer approves: no banned term occurs
    in it, as written or lower-cased, and its riskScore is the score of the
    text, below 40. *)
Theorem feed_shows_only_approved_text `{StringPrototype} `{Servicos} `{Consulta}
    q fs w items :
  alcancavel w → resultado (get_recompensas q fs w) = inr items →
  ∀ it, it ∈ items →
    ∃ r s, recompensas w !! item_id it = Some r
      ∧ fullText r = Some s
      ∧ decisao (avalia s) = APROVAR
      ∧ (∀ b, b ∈ BANNED → includes (toLowerCase s) b = false)
      ∧ (∀ b, b ∈ BANNED → includes s b = false)
      ∧ riskScore r = Some (score (avalia s))
      ∧ (score (avalia s) < 40)%Z.
Proof.
  intros Hw%alcancavel_bem_formado (rows & Hrows & ->)%get_recompensas_spec.
  intros it (ir & -> & Hir)%list_elem_of_fmap.
  destruct (recompensa_findMany_spec q fs w rows Hrows) as (_ & _ & Hin & _).
  destruct (Hin ir) as [Hr Hst];
    [eapply elem_of_sublist; [exact Hir | apply regiao_sublist]|].
  destruct (Hw _ _ Hr) as [[[Hrev _]|(s & Hs & Ha & Hst' & Hsc)] _];
    [congruence|].
  assert (decisao (avalia s) = APROVAR) as Hap.
  { rewrite Hst in Hst'. by destruct (decisao (avalia s)). }
  destruct (decisao_APROVAR s Hap) as (Hlow & Hraw & Hlt).
  exists ir.2, s. by split_and!.
Qed.

Lemma feed_shows_only_approved_text_witness :
  ∃ r s, recompensas mundo_feed !! 1 = Some r ∧ fullText r = Some s
         ∧ decisao (avalia s) = APROVAR.
Proof.
  assert (resultado (get_recompensas consulta_sp [] mundo_feed)
          = inr [item_sp]) as Hfeed by by vm_compute.
  destruct (feed_shows_only_approved_text consulta_sp [] mundo_feed
              [item_sp] mundo_feed_alcancavel Hfeed item_sp)
    as (r & s & Hr & Hs & Ha & _); [by left|].
  exists r, s. split_and!; assumption.
Defined.

(** X18. Sign-up, requests being served one at a time, never surfaces the
    unique constraint of the table: an email that is taken is answered with
    the route's own message and nothing is stored, whatever the CPF; so is
    a CPF that is taken when the email is free. *)
Theorem signup_reports_duplicates_itself `{Autenticacao} sal req fs c :
  let x := signup sal req fs c in
  saida x ≠ inr (Erro400 (Mensagem Conflito))
  ∧ (∀ b i u, req = Some b → chave_valida Email (c_email b) = true →
       falha fs = false →
       usuarios c !! i = Some u → email u = c_email b →
       x = (inr (Erro400 EmailJaCadastrado), c, tail fs))
  ∧ (∀ b i u, req = Some b → chave_valida Email (c_email b) = true →
       chave_valida Cpf (c_cpf b) = true →
       falha fs = false → falha (tail fs) = false →
       (∀ j v, usuarios c !! j = Some v → email v ≠ c_email b) →
       usuarios c !! i = Some u → cpf u = c_cpf b →
       x = (inr (Erro400 CpfJaCadastrado), c, tail (tail fs))).
Proof.
  cbv zeta. split_and!.
  - destruct req as [b|]; [|done]. rewrite signup_eq. unfold signup_tree.
    repeat (case_match; try done).
  - intros b i u -> Hk Hf Hu He. rewrite signup_eq. unfold signup_tree.
    rewrite Hk, Hf. cbn [negb].
    by destruct (procura_is_Some email _ c i u Hu He) as [ir ->].
  - intros b i u -> Hk Hk' Hf Hf' Hnone Hu Hc. rewrite signup_eq.
    unfold signup_tree. rewrite Hk, Hk', Hf, Hf'. cbn [negb].
    destruct (procura email (c_email b) c) as [ir|] eqn:He.
    + apply procura_Some in He as [Hir He]. by destruct (Hnone _ _ Hir).
    + by destruct (procura_is_Some cpf _ c i u Hu Hc) as [ir ->].
Qed.

Lemma signup_reports_duplicates_itself_witness :
  signup [] (Some cadastro_exemplo) []
    (com_usuario (novo_usuario cadastro_exemplo (lit "$2a$segredo"))
       contas_exemplo)
  = (inr (Erro400 EmailJaCadastrado),
     com_usuario (novo_usuario cadastro_exemplo (lit "$2a$segredo"))
       contas_exemplo, []).
Proof.
  apply (proj1 (proj2 (signup_reports_duplicates_itself []
                         (Some cadastro_exemplo) []
                         (com_usuario
                            (novo_usuario cadastro_exemplo (lit "$2a$segredo"))
                            contas_exemplo)))
           cadastro_exemplo 7
           (novo_usuario cadastro_exemplo (lit "$2a$segredo")));
    by vm_compute.
Defined.

(** X19. A sign-up that answers with an id has stored exactly one new
    account under that id, with the data of the request, the hash that
    [bcrypt.hash] computed in place of the password and [kycStatus]
    PENDENTE, and no account had that email or that CPF; any other answer
    leaves the accounts as they were. *)
Theorem signup_creates_one_pending_account `{Autenticacao} sal req fs c :
  let x := signup sal req fs c in
  (∀ id e n, saida x = inr (Cadastrado id e n) →
     ∃ b hash, req = Some b
       ∧ bcrypt_hash (c_senha b) sal = Some hash
       ∧ id = proximoUsuario c ∧ e = c_email b ∧ n = c_nomeCompleto b
       ∧ estado x = com_usuario (novo_usuario b hash) c
       ∧ kycStatus (novo_usuario b hash) = lit "PENDENTE"
       ∧ senhaHash (novo_usuario b hash) = hash
       ∧ ∀ j v, usuarios c !! j = Some v →
                email v ≠ c_email b ∧ cpf v ≠ c_cpf b)
  ∧ ((∀ id e n, saida x ≠ inr (Cadastrado id e n)) → estado x = c).
Proof.
  cbv zeta.
  destruct (signup_estado sal req fs c)
    as [Heq|(b & hash & -> & He & Hc & Hh & Heq)].
  - split; [|done]. intros id e n Hx.
    destruct req as [b|]; [|done]. revert Heq Hx. rewrite signup_eq.
    unfold signup_tree.
    repeat (case_match; try done). cbn [saida estado fst snd].
    intros Hc [= <- <- <-].
    apply (f_equal proximoUsuario) in Hc. cbn in Hc. lia.
  - rewrite Heq. cbn [saida estado fst snd]. split.
    + intros id e n [= <- <- <-]. exists b, hash.
      split_and!; try done. intros j v Hv.
      split; by eapply procura_None.
    + intros Hno. by destruct (Hno _ _ _ eq_refl).
Qed.

Lemma signup_creates_one_pending_account_witness :
  ∃ b hash, estado (signup [] (Some cadastro_exemplo) [] contas_exemplo)
            = com_usuario (novo_usuario b hash) contas_exemplo.
Proof.
  assert (saida (signup [] (Some cadastro_exemplo) [] contas_exemplo)
          = inr (Cadastrado 7 (Str (lit "ana@x.org")) (Str (lit "Ana"))))
    as Hup by by vm_compute.
  destruct (proj1 (signup_creates_one_pending_account []
                     (Some cadastro_exemplo) [] contas_exemplo)
              7 (Str (lit "ana@x.org")) (Str (lit "Ana")) Hup)
    as (b & hash & _ & _ & _ & _ & _ & Hst & _).
  by exists b, hash.
Defined.

(** X20. Whatever requests the two routes serve one after the other,
    starting without accounts, no two accounts share an email or a CPF. *)
Theorem accounts_stay_unique `{Autenticacao} c :
  rtc pedido_conta contas_vazias c →
  ∀ i j u v, usuarios c !! i = Some u → usuarios c !! j = Some v →
    email u = email v ∨ cpf u = cpf v → i = j.
Proof.
  intros Hsteps. enough (contas_ok c) as [Hu _] by exact Hu.
  revert Hsteps. generalize contas_ok_vazias.
  induction 2 as [|c0 c1 c2 Hstep _ IH]; [done|].
  apply IH. by eapply pedido_conta_ok.
Qed.

Lemma accounts_stay_unique_witness :
  rtc pedido_conta contas_vazias
    (estado (signup [] (Some cadastro_exemplo) [] contas_vazias))
  ∧ (1 : N) = 1.
Proof.
  assert (rtc pedido_conta contas_vazias
            (estado (signup [] (Some cadastro_exemplo) [] contas_vazias)))
    as Hreach by apply rtc_once, cadastrar.
  split; [exact Hreach|].
  apply (accounts_stay_unique _ Hreach 1 1
           (novo_usuario cadastro_exemplo (lit "$2a$segredo"))
           (novo_usuario cadastro_exemplo (lit "$2a$segredo")));
    [by vm_compute.. | by left].
Defined.

(** X21. Log-in never changes the accounts; it answers with a token only
    for an account that has the email of the request and whose stored hash
    [bcrypt.compare] accepts for the password, and the token is signed for
    the id of that account; an unknown email and a wrong password get the
    same answer. *)
Theorem login_requires_the_password `{Autenticacao} agora req fs c :
  let x := login agora req fs c in
  estado x = c
  ∧ (∀ t id e n, saida x = inr (Autenticado t id e n) →
       ∃ b u, req = Some b ∧ usuarios c !! id = Some u
         ∧ email u = c_email b
         ∧ bcrypt_compare (c_senha b) (senhaHash u) = Some true
         ∧ t = jwt_sign id agora ∧ e = email u ∧ n = nomeCompleto u)
  ∧ (∀ b, req = Some b → chave_valida Email (c_email b) = true →
       falha fs = false →
       (∀ i u, usuarios c !! i = Some u → email u = c_email b →
          bcrypt_compare (c_senha b) (senhaHash u) = Some false) →
       x = (inr (Erro401 CredenciaisInvalidas), c, tail fs)).
Proof.
  cbv zeta. split_and!.
  - apply login_estado.
  - intros t id e n. destruct req as [b|]; [|done]. rewrite login_eq.
    unfold login_tree.
    destruct (negb (chave_valida Email (c_email b))); [done|].
    destruct (falha fs); [done|].
    destruct (procura email (c_email b) c) as [[i u]|] eqn:Hp; [|done].
    apply procura_Some in Hp as [Hu He]. cbn [fst snd] in *.
    destruct (bcrypt_compare (c_senha b) (senhaHash u)) as [[]|] eqn:Hc;
      [|done..].
    cbn [saida fst]. intros [= <- <- <- <-]. by exists b, u.
  - intros b -> Hk Hf Hall. rewrite login_eq. unfold login_tree.
    rewrite Hk, Hf. cbn [negb].
    destruct (procura email (c_email b) c) as [[i u]|] eqn:Hp; [|done].
    apply procura_Some in Hp as [Hu He]. cbn [fst snd] in *.
    by rewrite (Hall i u Hu He).
Qed.

Lemma login_requires_the_password_witness :
  login 0 (Some cadastro_exemplo) [] contas_exemplo
  = (inr (Erro401 CredenciaisInvalidas), contas_exemplo, []).
Proof.
  apply (proj2 (proj2 (login_requires_the_password 0 (Some cadastro_exemplo)
                         [] contas_exemplo)) cadastro_exemplo);
    try reflexivity.
  intros i u Hu. unfold contas_exemplo in Hu. cbn [usuarios] in Hu.
  by rewrite lookup_empty in Hu.
Defined.

(** X22. With a password check that accepts the hashes it made, logging in
    right after a successful sign-up, with the same email and password,
    answers with a token for the new account; and when the token service
    verifies what it signed, [requireAuth] maps the header made of
    [Bearer ] and that token to the id of the account. *)
Theorem signup_then_login `{Autenticacao} `{Servicos} sal agora b fs c id e n :
  (∀ p s h, bcrypt_hash p s = Some h → bcrypt_compare p h = Some true) →
  saida (signup sal (Some b) fs c) = inr (Cadastrado id e n) →
  let c' := estado (signup sal (Some b) fs c) in
  login agora (Some b) [] c'
  = (inr (Autenticado (jwt_sign id agora) id e n), c', [])
  ∧ (jwt_verify (jwt_sign id agora) = Some id →
     ∀ req, authorization req = Some (lit "Bearer " ++ jwt_sign id agora) →
            requireAuth req = Some id).
Proof.
  intros Hbcrypt Hup. cbv zeta. split.
  - destruct (signup_estado sal (Some b) fs c)
      as [Heq|(b' & hash & [= <-] & He & Hc & Hh & Heq)].
    + revert Heq Hup. rewrite signup_eq. unfold signup_tree.
      repeat (case_match; try done). cbn [saida estado fst snd].
      intros Heq _. apply (f_equal proximoUsuario) in Heq. cbn in Heq. lia.
    + rewrite Heq in Hup |- *. cbn [saida estado fst snd] in Hup |- *.
      injection Hup as <- <- <-.
      rewrite login_eq. unfold login_tree.
      assert (chave_valida Email (c_email b) = true) as ->.
      { revert Heq. rewrite signup_eq. unfold signup_tree.
        by destruct (chave_valida Email (c_email b)). }
      cbn [negb falha tail]. rewrite procura_com_usuario by done.
      cbn [fst snd senhaHash email nomeCompleto novo_usuario].
      by rewrite (Hbcrypt _ _ _ Hh).
  - intros Hjwt req Hreq. unfold requireAuth. rewrite Hreq.
    cbn [default from_option Datatypes.id]. by rewrite replace_prefix.
Qed.

Lemma signup_then_login_witness :
  login 0 (Some cadastro_exemplo) []
    (estado (signup [] (Some cadastro_exemplo) [] contas_exemplo))
  = (inr (Autenticado (lit "tok") 7 (Str (lit "ana@x.org")) (Str (lit "Ana"))),
     estado (signup [] (Some cadastro_exemplo) [] contas_exemplo), []).
Proof.
  assert (∀ p s h, bcrypt_hash p s = Some h →
                   bcrypt_compare p h = Some true) as Hlaw.
  { intros p s h. destruct p; cbn; try done.
    intros [= <-]. by rewrite bool_decide_eq_true_2. }
  assert (saida (signup [] (Some cadastro_exemplo) [] contas_exemplo)
          = inr (Cadastrado 7 (Str (lit "ana@x.org")) (Str (lit "Ana"))))
    as Hup by by vm_compute.
  apply (proj1 (signup_then_login [] 0 cadastro_exemplo [] contas_exemplo
                  7 (Str (lit "ana@x.org")) (Str (lit "Ana")) Hlaw Hup)).
Defined.

(** X23. Delivering a job a second time, after a run that went through,
    goes through again and appends the same event once more: the ledger
    then holds the event twice, while the table is left as the first run
    left it. *)
Theorem redelivery_appends_the_event_again `{StringPrototype}
    (job : Job) (w : Mundo) (r : Recompensa) (s : jsstring) :
  let id := job_recompensaId job in
  let ev := evento id (decisao (avalia s))
              (motivo_de (decisao (avalia s)) (avalia s)) in
  let w1 := mundo (worker job [] w) in
  recompensas w !! id = Some r → fullText r = Some s →
  eventos w1 = eventos w ++ [ev]
  ∧ worker job [] w1 = (inr (), com_evento ev w1, [])
  ∧ eventos (mundo (worker job [] w1)) = eventos w ++ [ev; ev]
  ∧ recompensas (mundo (worker job [] w1)) = recompensas w1.
Proof.
  cbv zeta. intros Hr Hs.
  pose proof (worker_sem_falhas job [] w r s Hr Hs sem_falhas_nil) as Hrun.
  cbv zeta in Hrun. rewrite Hrun. cbn [mundo fst snd].
  set (v := veredito (novo_status (decisao (avalia s))) (score (avalia s)) r)
    in *.
  set (ev := evento (job_recompensaId job) (decisao (avalia s))
               (motivo_de (decisao (avalia s)) (avalia s))) in *.
  set (w1 := com_evento ev
               match decisao (avalia s) with
               | AJUSTAR => w
               | _ => com_recompensas (insert (job_recompensaId job) v) w
               end) in *.
  assert (∃ r1, recompensas w1 !! job_recompensaId job = Some r1
                ∧ fullText r1 = Some s
                ∧ (decisao (avalia s) ≠ AJUSTAR →
                   com_recompensas
                     (insert (job_recompensaId job)
                        (veredito (novo_status (decisao (avalia s)))
                           (score (avalia s)) r1)) w1 = w1))
    as (r1 & Hr1 & Hs1 & Hsame).
  { subst w1. destruct (decisao (avalia s)) eqn:Ha.
    - exists v. cbn [recompensas com_evento com_recompensas].
      rewrite lookup_insert_eq. split_and!; [done..|]. intros _.
      unfold com_recompensas, com_evento. cbn. by rewrite insert_insert_eq.
    - exists r. by split_and!.
    - exists v. cbn [recompensas com_evento com_recompensas].
      rewrite lookup_insert_eq. split_and!; [done..|]. intros _.
      unfold com_recompensas, com_evento. cbn. by rewrite insert_insert_eq. }
  pose proof (worker_sem_falhas job [] w1 r1 s Hr1 Hs1 sem_falhas_nil)
    as Hagain.
  cbv zeta in Hagain. fold ev in Hagain.
  assert (worker job [] w1 = (inr (), com_evento ev w1, [])) as Hw1.
  { rewrite Hagain. destruct (decisao (avalia s)) eqn:Ha; [|done|];
      by rewrite Hsame. }
  assert (eventos w1 = eventos w ++ [ev]) as Hev.
  { subst w1. by destruct (decisao (avalia s)). }
  split_and!; [done..| |].
  - rewrite Hw1. cbn [mundo fst snd eventos com_evento].
    by rewrite Hev, <- app_assoc.
  - by rewrite Hw1.
Qed.

Lemma redelivery_appends_the_event_again_witness :
  eventos
    (mundo (worker {| job_recompensaId := 5 |} []
       (mundo (worker {| job_recompensaId := 5 |} []
          (com_linha 5 (linha dog_title dog_description EM_REVISAO None))))))
  = [evento 5 APROVAR (lit "auto"); evento 5 APROVAR (lit "auto")].
Proof.
  pose proof (redelivery_appends_the_event_again {| job_recompensaId := 5 |}
    (com_linha 5 (linha dog_title dog_description EM_REVISAO None))
    (linha dog_title dog_description EM_REVISAO None) dog_text
    eq_refl eq_refl) as (_ & _ & -> & _).
  by rewrite dog_avalia.
Defined.

(** X24. Which handlers catch their failures: [POST /recompensas], and
    sign-up and log-in on a request with a body, answer whatever fails
    inside them; the handler of the feed catches nothing, so when the
    client rejects the scope or the call to the store is rejected the
    handler itself rejects, with the store unchanged, and otherwise it
    answers. *)
Theorem failures_caught_except_in_the_feed
    `{Servicos} `{Consulta} `{Autenticacao}
    (req : Request) (q : Query) (b : Cadastro) (sal : jsstring) (agora : N)
    (fs : list bool) (w : Mundo) (c : Contas) :
  (∃ resp, resultado (post_recompensas req fs w) = inr resp)
  ∧ (∃ resp, saida (signup sal (Some b) fs c) = inr resp)
  ∧ (∃ resp, saida (login agora (Some b) fs c) = inr resp)
  ∧ (presente (q_scope q) = true → scope_where (q_scope q) = None →
     get_recompensas q fs w = (inl ValidationError, w, fs))
  ∧ ((presente (q_scope q) = true → is_Some (scope_where (q_scope q))) →
     falha fs = true →
     get_recompensas q fs w = (inl Indisponivel, w, tail fs))
  ∧ ((presente (q_scope q) = true → is_Some (scope_where (q_scope q))) →
     falha fs = false →
     ∃ items, get_recompensas q fs w = (inr items, w, tail fs)).
Proof.
  split_and!.
  - rewrite post_eq. unfold post_tree.
    repeat (case_match; try done); cbn [resultado fst]; by eexists.
  - rewrite signup_eq. unfold signup_tree.
    repeat (case_match; try done); cbn [saida fst]; by eexists.
  - rewrite login_eq. unfold login_tree.
    repeat (case_match; try done); cbn [saida fst]; by eexists.
  - intros Hp Hnone. unfold get_recompensas, recompensa_findMany.
    by rewrite Hp, Hnone.
  - intros Hsome Hf. unfold get_recompensas, recompensa_findMany.
    cbv zeta.
    destruct (if presente (q_scope q) then _ else _) as [f|] eqn:Hsc.
    + cbv [mbind IO_bind mret IO_ret gets]. by rewrite chamada_eq, Hf.
    + destruct (presente (q_scope q)); [|done].
      destruct (Hsome eq_refl) as [f Hf']. congruence.
  - intros Hsome Hf. unfold get_recompensas, recompensa_findMany.
    cbv zeta.
    destruct (if presente (q_scope q) then _ else _) as [f|] eqn:Hsc.
    + cbv [mbind IO_bind mret IO_ret gets]. rewrite chamada_eq, Hf.
      by eexists.
    + destruct (presente (q_scope q)); [|done].
      destruct (Hsome eq_refl) as [f Hf']. congruence.
Qed.

Lemma failures_caught_except_in_the_feed_witness :
  get_recompensas consulta_sp [true] mundo_feed
  = (inl Indisponivel, mundo_feed, []).
Proof.
  apply (proj1 (proj2 (proj2 (proj2 (proj2
           (failures_caught_except_in_the_feed (pedido None) consulta_sp
              cadastro_exemplo [] 0 [true] mundo_feed contas_exemplo)))))).
  - intros _. by eexists.
  - reflexivity.
Defined.
